(** * The blackjack-like engine of [project/game/src]

    A shallow embedding of [card.py], [bot.py] and [game.py].

    Python objects that the engine mutates in place (the bots) live in a
    store indexed by references; the game holds a list of references, so
    that the same bot object may occur several times in it, as it may in
    Python.  Amounts are integers, as [BotProtocol] declares them
    ([balance: int], [current_bet: int]). *)

From Stdlib Require Import ZArith List String Bool Lia Permutation Arith
  Relations.
Import ListNotations.
Open Scope string_scope.
Open Scope list_scope.
Open Scope Z_scope.

(* ------------------------------------------------------------------ *)
(** ** card.py *)

(** [@dataclass(frozen=True) class Card]: [suit: str], [rank: int]. *)
Record Card : Type := mkCard { suit : string; rank : Z }.

(** [Card.value]: [min(self.rank, 10)]. *)
Definition value (c : Card) : Z := Z.min (rank c) 10.

Definition Card_eqb (c d : Card) : bool :=
  String.eqb (suit c) (suit d) && (rank c =? rank d).

(** [Deck.suits] and [Deck.ranks = range(1, 14)]. *)
Definition suits : list string := ["Hearts"; "Diamonds"; "Clubs"; "Spades"].
Definition ranks : list Z := map Z.of_nat (seq 1 13).

(** The deck is the Python list [_cards]; its top is the last element. *)
Definition Deck : Type := list Card.

(** The random source: what [(rng or random).shuffle] does to a list. *)
Definition Rng : Type := list Card -> list Card.

(** [[Card(suit, rank) for suit in self.suits for rank in self.ranks]]. *)
Definition fresh_cards : list Card :=
  flat_map (fun s => map (fun r => mkCard s r) ranks) suits.

(** [Deck.__init__]: build the 52 cards, then shuffle them. *)
Definition Deck_init (rng : Rng) : Deck := rng fresh_cards.

(** [Deck.draw]: [self._cards.pop() if self._cards else None]. *)
Definition draw (d : Deck) : option Card * Deck :=
  match rev d with
  | [] => (None, d)
  | c :: below => (Some c, rev below)
  end.

(** [n] successive calls of [draw], results in call order. *)
Fixpoint draw_many (n : nat) (d : Deck) : list (option Card) * Deck :=
  match n with
  | O => ([], d)
  | S k =>
      let (c, d1) := draw d in
      let (cs, d2) := draw_many k d1 in
      (c :: cs, d2)
  end.

(** [Deck.shuffle], [Deck.__len__], [Deck.__bool__]. *)
Definition Deck_shuffle (rng : Rng) (d : Deck) : Deck := rng d.
Definition Deck_len (d : Deck) : Z := Z.of_nat (List.length d).
Definition Deck_bool (d : Deck) : bool :=
  match d with [] => false | _ :: _ => true end.

(* ------------------------------------------------------------------ *)
(** ** bot.py: Hand *)

Definition Hand : Type := list Card.

Definition Hand_init : Hand := [].
Definition add_card (h : Hand) (c : Card) : Hand := h ++ [c].
Definition cards (h : Hand) : list Card := h.
Definition Hand_reset (h : Hand) : Hand := [].

Definition sum (l : list Z) : Z := fold_right Z.add 0 l.

(** The loop of [calculate_score]:
    [while aces and score <= target_score - 10: score += 10; aces -= 1].
    [aces] is a count, it only goes down, and the loop ends at 0. *)
Fixpoint promote_aces (aces : nat) (score target_score : Z) : Z :=
  match aces with
  | O => score
  | S aces' =>
      if score <=? target_score - 10
      then promote_aces aces' (score + 10) target_score
      else score
  end.

(** [Hand.calculate_score]. *)
Definition calculate_score (h : Hand) (target_score : Z) : Z :=
  let score := sum (map value h) in
  let aces := List.length (filter (fun c => rank c =? 1) h) in
  promote_aces aces score target_score.

(** The closed form as the specification words it: a loop over the pair
    (score, aces_remaining) that adds 10 and consumes one Ace while
    [aces_remaining > 0] and [score <= target - 10]. *)
Inductive closed_form_step (target : Z) : Z * Z -> Z * Z -> Prop :=
| promote_one : forall score aces_remaining,
    aces_remaining > 0 -> score <= target - 10 ->
    closed_form_step target (score, aces_remaining)
                            (score + 10, aces_remaining - 1).

Definition closed_form_done (target : Z) (st : Z * Z) : Prop :=
  ~ (snd st > 0 /\ fst st <= target - 10).

Definition closed_form_score (h : Hand) (target score : Z) : Prop :=
  exists aces_left,
    clos_refl_trans_1n _ (closed_form_step target)
      (sum (map value h), Z.of_nat (List.length (filter (fun c => rank c =? 1) h)))
      (score, aces_left)
    /\ closed_form_done target (score, aces_left).

(* ------------------------------------------------------------------ *)
(** ** bot.py: Bet, Bot and the strategy classes *)

(** A call either returns or raises [ValueError]. *)
Inductive result (A : Type) : Type :=
| Ok (a : A)
| ValueError (msg : string).
Arguments Ok {A} a.
Arguments ValueError {A} msg.

Definition raises {A : Type} (r : result A) : bool :=
  match r with Ok _ => false | ValueError _ => true end.

(** [Bet.__init__]. *)
Definition Bet_init (amount : Z) : result Z :=
  if amount <? 0 then ValueError "Bet amount must be non-negative"
  else Ok amount.

(** A [decide] method, as a function of [self.hand] and [target_score]. *)
Definition DecideFn : Type := Hand -> Z -> bool.

(** The two entries of a class body that [BotMeta] reads or writes. *)
Record ClassAttrs : Type := mkAttrs {
  attr_strategy : option string;
  attr_decide : option DecideFn
}.

(** [_build(delta)] inside [BotMeta.__new__]. *)
Definition _build (delta : Z) : DecideFn :=
  fun hand target_score =>
    calculate_score hand target_score <? target_score - delta.

Definition strategy_is (strategy : option string) (tag : string) : bool :=
  match strategy with
  | Some s => String.eqb s tag
  | None => false
  end.

(** [BotMeta.__new__]: overwrite [attrs["decide"]] for the four tags. *)
Definition BotMeta (attrs : ClassAttrs) : ClassAttrs :=
  let strategy := attr_strategy attrs in
  if strategy_is strategy "conservative" then
    mkAttrs strategy (Some (_build 5))
  else if strategy_is strategy "aggressive" then
    mkAttrs strategy (Some (_build 2))
  else if strategy_is strategy "mixed" then
    mkAttrs strategy
      (Some (fun hand target_score =>
               calculate_score hand target_score mod 2 =? 0))
  else if strategy_is strategy "balanced" then
    mkAttrs strategy (Some (_build 4))
  else attrs.

(** [Bot.decide], the default behaviour. *)
Definition Bot_decide : DecideFn :=
  fun hand target_score => calculate_score hand target_score <? 17.

(** [IntuitiveBot.decide]. *)
Definition IntuitiveBot_decide : DecideFn :=
  fun hand target_score =>
    let score := calculate_score hand target_score in
    let total_cards := Z.of_nat (List.length (cards hand)) in
    if (total_cards <? 2) && (score <? 15) then true
    else if (total_cards =? 2) && (score <? 17) then true
    else false.

(** The classes of [bot.py]; [BaseBot] is [Bot] itself. *)
Inductive BotClass : Type :=
| BaseBot | ConservativeBot | AggressiveBot | MixedBot | BalancedBot
| IntuitiveBot.

(** What each class statement declares. *)
Definition class_body (c : BotClass) : ClassAttrs :=
  match c with
  | BaseBot => mkAttrs None (Some Bot_decide)
  | ConservativeBot => mkAttrs (Some "conservative") None
  | AggressiveBot => mkAttrs (Some "aggressive") None
  | MixedBot => mkAttrs (Some "mixed") None
  | BalancedBot => mkAttrs (Some "balanced") None
  | IntuitiveBot => mkAttrs (Some "intuitive") (Some IntuitiveBot_decide)
  end.

Definition class_name (c : BotClass) : string :=
  match c with
  | BaseBot => "Bot"
  | ConservativeBot => "ConservativeBot"
  | AggressiveBot => "AggressiveBot"
  | MixedBot => "MixedBot"
  | BalancedBot => "BalancedBot"
  | IntuitiveBot => "IntuitiveBot"
  end.

(** [strategy] of a class: its own tag (no class inherits one). *)
Definition strategy (c : BotClass) : option string :=
  attr_strategy (BotMeta (class_body c)).

(** Attribute lookup of [decide]: the class created by [BotMeta], then its
    base [Bot]. *)
Definition class_decide (c : BotClass) : DecideFn :=
  match attr_decide (BotMeta (class_body c)) with
  | Some d => d
  | None => Bot_decide
  end.

(** A bot instance.  The underscored aliases set in [Bot.__init__] are
    left out: every instance has the public attributes, so [_safe_get] and
    [_safe_set] always take their first branch. *)
Record Bot : Type := mkBot {
  name : string;
  balance : Z;
  current_bet : Z;
  is_active : bool;
  hand : Hand;
  bot_class : BotClass
}.

Definition set_balance (b : Bot) (v : Z) : Bot :=
  mkBot (name b) v (current_bet b) (is_active b) (hand b) (bot_class b).
Definition set_current_bet (b : Bot) (v : Z) : Bot :=
  mkBot (name b) (balance b) v (is_active b) (hand b) (bot_class b).
Definition set_is_active (b : Bot) (v : bool) : Bot :=
  mkBot (name b) (balance b) (current_bet b) v (hand b) (bot_class b).
Definition set_hand (b : Bot) (v : Hand) : Bot :=
  mkBot (name b) (balance b) (current_bet b) (is_active b) v (bot_class b).

(** [Bot.place_bet]. *)
Definition place_bet (self : Bot) (amount : Z) : result Bot :=
  if amount <? 0 then ValueError "Bet amount must be non-negative"
  else if amount >? balance self then
    ValueError "Insufficient balance to place the bet"
  else Ok (set_current_bet self amount).

(** [Bot.__init__] of class [c]. *)
Definition Bot_init (c : BotClass) (name : string) (bet_amount : Z)
  : result Bot :=
  let self := mkBot name 1000 0 true Hand_init c in
  match Bet_init bet_amount with
  | ValueError msg => ValueError msg
  | Ok _ => place_bet self bet_amount
  end.

(** [Bot.reset_hand]. *)
Definition reset_hand (self : Bot) : Bot :=
  set_is_active (set_hand self (Hand_reset (hand self))) true.

(** [bot.decide(target_score)]. *)
Definition decide (self : Bot) (target_score : Z) : bool :=
  class_decide (bot_class self) (hand self) target_score.

(** The default of the parameter [target_score] of every [decide]. *)
Definition decide_default_target : Z := 21.

(* ------------------------------------------------------------------ *)
(** ** game.py *)

(** Bot objects are referred to by reference; the store gives the object
    behind each one. *)
Definition Ref : Type := nat.
Definition Store : Type := Ref -> Bot.

Definition upd (st : Store) (r : Ref) (b : Bot) : Store :=
  fun r' => if Nat.eqb r' r then b else st r'.

(** The reason handed to [_conclude]. *)
Inductive Reason : Type :=
| LastRemaining
| Reached (points : Z).

(** The lines the engine hands to its logger, one constructor per format
    string; fixed texts are kept without their dashes and line breaks. *)
Inductive Event : Type :=
| Line (text : string)
| RoundHeader (number : Z)
| InitialLine (bot : string) (bal bet : Z)
| StaysTagged (bot : string) (score : Z) (tag : string)
| Draws (bot : string) (card : Card)
| Stays (bot : string) (score : Z)
| StateLine (rows : list (string * string * Z * list Card))
| GameOver (bot : string) (reason : option Reason)
| FinalBalance (bot : string) (bal : Z)
| WinnerLine (bot : string) (bal : Z).

Record Game : Type := mkGame {
  _deck : Deck;
  _bots : list Ref;
  _max_steps : Z;
  _current_step : Z;
  target_score : Z;
  _logger : list Event
}.

Definition set_deck (g : Game) (d : Deck) : Game :=
  mkGame d (_bots g) (_max_steps g) (_current_step g) (target_score g)
         (_logger g).
Definition set_current_step (g : Game) (n : Z) : Game :=
  mkGame (_deck g) (_bots g) (_max_steps g) n (target_score g) (_logger g).

(** [Game._log]. *)
Definition _log (g : Game) (e : Event) : Game :=
  mkGame (_deck g) (_bots g) (_max_steps g) (_current_step g)
         (target_score g) (_logger g ++ [e]).

(** [GameMeta.__new__]: [attrs.setdefault("target_score", 21)]. *)
Definition GameMeta (attrs_target_score : option Z) : Z :=
  match attrs_target_score with
  | Some t => t
  | None => 21
  end.

(** [type(self).target_score]: the body of [Game] declares none. *)
Definition class_target_score : Z := GameMeta None.

(** [x or y] for an [Optional[int]] [x]: [None] and [0] are falsy. *)
Definition py_or (x : option Z) (y : Z) : Z :=
  match x with
  | None => y
  | Some v => if v =? 0 then y else v
  end.

Definition default_max_steps : Z := 10.

(** [Game.__init__]; the deck is [Deck()], shuffled by [rng]. *)
Definition Game_init (rng : Rng) (bots : list Ref) (max_steps : Z)
    (target_score : option Z) : result Game :=
  if max_steps <=? 0 then
    ValueError "max_steps must be a positive integer > 0"
  else
    Ok (mkGame (Deck_init rng) bots max_steps 0
               (py_or target_score class_target_score) []).

(** Whether the [for] loop of [_play_round] ran to its end or left
    through [break]. *)
Inductive Flow : Type := Completed | Broke.

(** The [for bot in self._bots] loop of [_play_round]. *)
Fixpoint _play_round_for (bots : list Ref) (g : Game) (st : Store)
  : Flow * Game * Store :=
  match bots with
  | [] => (Completed, g, st)
  | bot :: rest =>
      if negb (is_active (st bot)) then _play_round_for rest g st
      else
        let score := calculate_score (hand (st bot)) (target_score g) in
        if score >=? target_score g then
          let st1 := upd st bot (set_is_active (st bot) false) in
          let tag := if score >? target_score g then "(bust)" else "(stay)" in
          _play_round_for rest
            (_log g (StaysTagged (name (st1 bot)) score tag)) st1
        else if decide (st bot) decide_default_target then
          match draw (_deck g) with
          | (None, d) => (Broke, _log (set_deck g d) (Line "Deck is empty!"), st)
          | (Some card, d) =>
              let st1 :=
                upd st bot (set_hand (st bot) (add_card (hand (st bot)) card)) in
              _play_round_for rest
                (_log (set_deck g d) (Draws (name (st1 bot)) card)) st1
          end
        else
          _play_round_for rest (_log g (Stays (name (st bot)) score)) st
  end.

(** [Game._show_state]. *)
Definition _show_state (g : Game) (st : Store) : Game :=
  _log g (StateLine
    (map (fun bot =>
            (name (st bot), class_name (bot_class (st bot)),
             calculate_score (hand (st bot)) (target_score g),
             cards (hand (st bot))))
         (_bots g))).

(** [Game._play_round]. *)
Definition _play_round (g : Game) (st : Store) : Game * Store :=
  let '(_, g1, st1) :=
    _play_round_for (_bots g) (_log g (RoundHeader (_current_step g + 1))) st in
  (_show_state g1 st1, st1).

(** [Game._show_initial_state] and [Game._show_final_state]. *)
Definition _show_initial_state (g : Game) (st : Store) : Game :=
  fold_left
    (fun g bot =>
       _log g (InitialLine (name (st bot)) (balance (st bot))
                           (current_bet (st bot))))
    (_bots g) (_log g (Line "Initial Game State")).

Definition _show_final_state (g : Game) (st : Store) (winner : option Ref)
  : Game :=
  let g1 :=
    fold_left
      (fun g bot => _log g (FinalBalance (name (st bot)) (balance (st bot))))
      (_bots g) (_log g (Line "Final Game State")) in
  match winner with
  | Some w => _log g1 (WinnerLine (name (st w)) (balance (st w)))
  | None => g1
  end.

(** Python's [max(iterable, key=...)]: the first item is the candidate and
    a later item replaces it only when its key is strictly greater. *)
Fixpoint max_from {A : Type} (key : A -> Z) (best : A) (l : list A) : A :=
  match l with
  | [] => best
  | x :: l' =>
      if key x >? key best then max_from key x l' else max_from key best l'
  end.

(** [Game._determine_winner]. *)
Definition _determine_winner (g : Game) (st : Store) : option Ref * Game :=
  let score b := calculate_score (hand (st b)) (target_score g) in
  let valid := filter (fun b => score b <=? target_score g) (_bots g) in
  match valid with
  | [] => (None, _log g (Line "All bots bust. No winner."))
  | first :: others =>
      match find (fun b => score b =? target_score g) valid with
      | Some perfect => (Some perfect, g)
      | None => (Some (max_from score first others), g)
      end
  end.

(** The body of the [for] loop of [_distribute_pot]; [bot is not winner]
    compares references. *)
Definition settle (winner : Ref) (st : Store) (bot : Ref) : Store :=
  let st' :=
    if negb (Nat.eqb bot winner) then
      upd st bot
          (set_balance (st bot) (balance (st bot) - current_bet (st bot)))
    else st in
  upd st' bot (set_current_bet (st' bot) 0).

(** [Game._distribute_pot]. *)
Definition _distribute_pot (g : Game) (st : Store) (winner : Ref)
  : Z * Store :=
  let total_bet :=
    sum (map (fun b => current_bet (st b))
             (filter (fun b => negb (Nat.eqb b winner)) (_bots g))) in
  let st1 := upd st winner
                 (set_balance (st winner) (balance (st winner) + total_bet)) in
  (total_bet, fold_left (settle winner) (_bots g) st1).

(** [Game._conclude]. *)
Definition _conclude (g : Game) (st : Store) (winner : option Ref)
    (reason : option Reason) : Game * Store :=
  match winner with
  | None =>
      (_log (_show_final_state g st None) (Line "Game ended with no winner."),
       st)
  | Some w =>
      let (total_winnings, st1) := _distribute_pot g st w in
      let g1 := _log g (GameOver (name (st1 w)) reason) in
      (_show_final_state g1 st1 (Some w), st1)
  end.

(** What the termination checks of [_rounds] decide after a round. *)
Inductive Check : Type :=
| Won (winner : Ref) (reason : Reason)
| GoOn.

(** The termination checks in the body of the [while] loop of [_rounds]:
    A, only one bot left alive; B, someone hit the exact target. *)
Definition termination_checks (g : Game) (st : Store) : Check :=
  let active_bots := filter (fun b => is_active (st b)) (_bots g) in
  match active_bots with
  | [winner] => Won winner LastRemaining
  | _ =>
      match
        find (fun b => calculate_score (hand (st b)) (target_score g)
                       =? target_score g) active_bots
      with
      | Some perfect => Won perfect (Reached (target_score g))
      | None => GoOn
      end
  end.

(** The [while] loop of [Game._rounds] with what follows it.  Every
    iteration adds one to [_current_step]; [fuel] bounds the iterations
    and [None] means it ran out. *)
Fixpoint _rounds_while (fuel : nat) (g : Game) (st : Store)
  : option (Game * Store) :=
  if _current_step g <? _max_steps g then
    match fuel with
    | O => None
    | S fuel' =>
        let (g1, st1) := _play_round g st in
        let g2 := set_current_step g1 (_current_step g1 + 1) in
        match termination_checks g2 st1 with
        | Won winner reason =>
            Some (_conclude g2 st1 (Some winner) (Some reason))
        | GoOn => _rounds_while fuel' g2 st1
        end
    end
  else
    let g1 := _log g (Line "Max number of rounds reached - determining winner by score") in
    let (winner, g2) := _determine_winner g1 st in
    Some (_conclude g2 st winner None).

(** [Game._rounds] run to its end, as [Game.play] does. *)
Definition _rounds (g : Game) (st : Store) : option (Game * Store) :=
  _rounds_while (Z.to_nat (_max_steps g - _current_step g))
                (_show_initial_state g st) st.

Definition play (g : Game) (st : Store) : option (Game * Store) :=
  _rounds g st.

(* ------------------------------------------------------------------ *)
(** ** The specification's wording, and helpers of the proofs *)

(** The table of hit conditions of the specification, by strategy tag;
    [s] is the hand's score, [t] the target and [held] the number of
    cards held. *)
Definition table_condition (tag : option string) (s t held : Z) : Prop :=
  match tag with
  | None => s < 17
  | Some x =>
      (x = "conservative" /\ s < t - 5)
      \/ (x = "aggressive" /\ s < t - 2)
      \/ (x = "mixed" /\ Z.Even s)
      \/ (x = "balanced" /\ s < t - 4)
      \/ (x = "intuitive" /\ ((held < 2 /\ s < 15) \/ (held = 2 /\ s < 17)))
  end.

(** Two game records that differ at most in the deck and in the lines
    logged so far. *)
Definition same_session (g g' : Game) : Prop :=
  _bots g' = _bots g
  /\ _max_steps g' = _max_steps g
  /\ _current_step g' = _current_step g
  /\ target_score g' = target_score g.

(** What is assumed of a random source: shuffling reorders, it neither
    drops nor repeats nor invents a card. *)
Definition shuffles (rng : Rng) : Prop :=
  forall l, Permutation l (rng l).

(** A decision procedure for "no card occurs twice". *)
Fixpoint distinct_b (l : list Card) : bool :=
  match l with
  | [] => true
  | c :: l' => negb (existsb (Card_eqb c) l') && distinct_b l'
  end.

(** Winner-by-heuristic as the specification words it, for a bot list, the
    score of each bot and the target: no winner when every bot busted;
    otherwise the first bot with the exact target if there is one;
    otherwise the first bot that attains the highest score among the bots
    that did not bust. *)
Definition heuristic_winner (bots : list Ref) (score : Ref -> Z) (target : Z)
    (winner : option Ref) : Prop :=
  ((forall b, In b bots -> score b > target) /\ winner = None)
  \/ (exists before b after,
        bots = before ++ b :: after
        /\ score b = target
        /\ (forall b', In b' before -> score b' <> target)
        /\ winner = Some b)
  \/ (exists before b after,
        bots = before ++ b :: after
        /\ (forall b', In b' bots -> score b' <> target)
        /\ score b <= target
        /\ (forall b', In b' bots -> score b' <= target -> score b' <= score b)
        /\ (forall b', In b' before -> score b' <= target ->
                       score b' < score b)
        /\ winner = Some b).

(** What the loop of [_distribute_pot] leaves of the bot behind [r] once
    it has visited it. *)
Definition settled (winner : Ref) (b : Bot) (r : Ref) : Bot :=
  set_current_bet
    (if Nat.eqb r winner then b
     else set_balance b (balance b - current_bet b)) 0.

(* ------------------------------------------------------------------ *)
(** ** The bots of [examples/main.py], used as concrete inputs *)

Definition demo_store : Store :=
  fun r =>
    match r with
    | 0%nat => mkBot "Bot-Conservative" 1000 100 true [] ConservativeBot
    | 1%nat => mkBot "Bot-Aggressive" 1000 200 true [] AggressiveBot
    | _ => mkBot "Bot-Mixed" 1000 100 true [] MixedBot
    end.

Definition demo_bots : list Ref := [0%nat; 1%nat; 2%nat].

(** The deck order is immaterial where these are used. *)
Definition demo_game : Game := mkGame fresh_cards demo_bots 10 0 21 [].

(** The same game when a single card is left in the deck. *)
Definition last_card_game : Game :=
  mkGame [mkCard "Hearts" 5] demo_bots 10 0 21 [].

(** Its first round: what the loop over the bots returns. *)
Definition last_card_round : Flow * Game * Store :=
  _play_round_for (_bots last_card_game)
    (_log last_card_game (RoundHeader (_current_step last_card_game + 1)))
    demo_store.

(** A random source for tests: it leaves on top of the deck, in drawing
    order, two tens, two eights and two more tens. *)
Definition stacked_top : list Card :=
  [mkCard "Hearts" 10; mkCard "Diamonds" 10; mkCard "Hearts" 8;
   mkCard "Diamonds" 8; mkCard "Clubs" 10; mkCard "Spades" 10].

Definition stacked : Rng :=
  fun l =>
    filter (fun c => negb (existsb (Card_eqb c) stacked_top)) l
    ++ rev stacked_top.

(** Two aggressive bots with bets of 100 and 200. *)
Definition two_aggressive : Store :=
  fun r =>
    match r with
    | 0%nat => mkBot "A1" 1000 100 true [] AggressiveBot
    | _ => mkBot "A2" 1000 200 true [] AggressiveBot
    end.

(** [Game(bots, max_steps=3).play()] on them with that deck. *)
Definition all_bust_play : option (Game * Store) :=
  match Game_init stacked [0%nat; 1%nat] 3 None with
  | Ok g => play g two_aggressive
  | ValueError _ => None
  end.

(** A hand from a list of ranks, all of one suit. *)
Definition hand_of (ranks : list Z) : Hand :=
  map (fun r => mkCard "Hearts" r) ranks.

(* ------------------------------------------------------------------ *)
(** ** Notions used by the further properties *)

(** The sum of the card values of a hand, before any Ace is promoted. *)
Definition base_score (h : Hand) : Z := sum (map value h).

(** The number of Aces of a hand. *)
Definition count_aces (h : Hand) : nat :=
  List.length (filter (fun c => rank c =? 1) h).

(** What a round may do to a bot: name, balance, bet and class stay; an
    inactive bot stays as it is; a hand only gets longer. *)
Definition round_evolves (b b' : Bot) : Prop :=
  name b' = name b
  /\ balance b' = balance b
  /\ current_bet b' = current_bet b
  /\ bot_class b' = bot_class b
  /\ (is_active b = false -> b' = b)
  /\ exists extra, hand b' = hand b ++ extra.

(** One turn of [_play_round] for a bot in state [b], with [deck] the
    cards that may be drawn: an inactive bot is skipped; a bot at or above
    the target is deactivated; a bot that decides to hit gets one card of
    the deck at the end of its hand; a bot that decides to stay is left
    alone. *)
Definition turn_spec (target : Z) (deck : Deck) (b b' : Bot) : Prop :=
  if negb (is_active b) then b' = b
  else if calculate_score (hand b) target >=? target then
    b' = set_is_active b false
  else if decide b decide_default_target then
    exists c, In c deck /\ b' = set_hand b (add_card (hand b) c)
  else b' = b.

(** All the cards held by the bots of a list. *)
Definition hands (bots : list Ref) (st : Store) : list Card :=
  flat_map (fun b => hand (st b)) bots.


(** The first round of the game of [examples/main.py] on the unshuffled
    deck. *)
Definition demo_round : Flow * Game * Store :=
  _play_round_for (_bots demo_game)
    (_log demo_game (RoundHeader (_current_step demo_game + 1)))
    demo_store.

(** [g'] is [g] with, at most, more lines logged. *)
Definition logs_more (g g' : Game) : Prop :=
  _deck g' = _deck g /\ same_session g g'.

(** The state after some turns of the [while] loop of [_rounds]: each turn
    plays a round and adds one to the step counter, and is taken only
    while steps are left. *)
Inductive rounds_reach : Game -> Store -> Game -> Store -> Prop :=
| reach_here : forall g st, rounds_reach g st g st
| reach_round : forall g st g' st',
    _current_step g < _max_steps g ->
    rounds_reach
      (set_current_step (fst (_play_round g st))
                        (_current_step (fst (_play_round g st)) + 1))
      (snd (_play_round g st)) g' st' ->
    rounds_reach g st g' st'.

(** The game [Game(bots, max_steps=3)] of two bots on the stacked deck,
    as [Game.__init__] builds it. *)
Definition stacked_game : Game :=
  mkGame (Deck_init stacked) [0%nat; 1%nat] 3 0 21 [].

(** What [play] returns on it (the game itself should it not return). *)
Definition stacked_result : Game * Store :=
  match play stacked_game two_aggressive with
  | Some res => res
  | None => (stacked_game, two_aggressive)
  end.

(* ------------------------------------------------------------------ *)
(** ** vectorOperations.py and matrixOperations.py

    [vectorOperations.py] defines the vector and the matrix functions;
    [vector_operations.py] repeats the vector ones and
    [matrixOperations.py] the matrix ones, with the same bodies.  Entries
    are Python integers.  Indexing a list out of range raises
    [IndexError]; [vector_length] and [vector_angle] go through floating
    point and are left out. *)

(** A call either returns or raises [IndexError]. *)
Inductive outcome (A : Type) : Type :=
| Returns (a : A)
| IndexError.
Arguments Returns {A} a.
Arguments IndexError {A}.

Definition bind {A B : Type} (c : outcome A) (k : A -> outcome B)
  : outcome B :=
  match c with
  | Returns a => k a
  | IndexError => IndexError
  end.

Notation "'do' x <- c ; k" := (bind c (fun x => k))
  (at level 10, x name, c at level 100, k at level 200).

(** [l[i]] for an index [i >= 0]. *)
Definition getitem {A : Type} (l : list A) (i : nat) : outcome A :=
  match nth_error l i with
  | Some x => Returns x
  | None => IndexError
  end.

(** [range(n)]. *)
Definition range (n : nat) : list nat := seq 0 n.

(** [[f(i) for i in idx]], where evaluating [f(i)] may raise. *)
Fixpoint comprehension {A : Type} (f : nat -> outcome A) (idx : list nat)
  : outcome (list A) :=
  match idx with
  | [] => Returns []
  | i :: rest =>
      do x <- f i;
      do xs <- comprehension f rest;
      Returns (x :: xs)
  end.

(** [vector_multiplication]: the loop adds [vector_1[i] * vector_2[i]] for
    [i] in [range(len(vector_1))], behind the guard on the lengths. *)
Definition vector_multiplication (vector_1 vector_2 : list Z) : option Z :=
  if negb (Nat.eqb (List.length vector_1) (List.length vector_2)) then None
  else
    Some (fold_left
            (fun s i => s + nth i vector_1 0 * nth i vector_2 0)
            (range (List.length vector_1)) 0).

Definition Matrix : Type := list (list Z).

(** [matrix_1[i][j]]. *)
Definition entry (m : Matrix) (i j : nat) : outcome Z :=
  do row <- getitem m i; getitem row j.

(** [matrix_sum]; the inner [None] is Python's [None]. *)
Definition matrix_sum (matrix_1 matrix_2 : Matrix)
  : outcome (option Matrix) :=
  if negb (Nat.eqb (List.length matrix_1) (List.length matrix_2)) then
    Returns None
  else
    do first_1 <- getitem matrix_1 0;
    do first_2 <- getitem matrix_2 0;
    if negb (Nat.eqb (List.length first_1) (List.length first_2)) then
      Returns None
    else
      do sum_matrix <-
        comprehension
          (fun i =>
             comprehension
               (fun j =>
                  do a <- entry matrix_1 i j;
                  do b <- entry matrix_2 i j;
                  Returns (a + b))
               (range (List.length first_1)))
          (range (List.length matrix_1));
      Returns (Some sum_matrix).

(** [matrix_multi]. *)
Definition matrix_multi (matrix_1 matrix_2 : Matrix)
  : outcome (option Matrix) :=
  do first_1 <- getitem matrix_1 0;
  if negb (Nat.eqb (List.length first_1) (List.length matrix_2)) then
    Returns None
  else
    do product_matrix <-
      comprehension
        (fun i =>
           do first_2 <- getitem matrix_2 0;
           comprehension
             (fun j =>
                do terms <-
                  comprehension
                    (fun k =>
                       do a <- entry matrix_1 i k;
                       do b <- entry matrix_2 k j;
                       Returns (a * b))
                    (range (List.length first_1));
                Returns (sum terms))
             (range (List.length first_2)))
        (range (List.length matrix_1));
    Returns (Some product_matrix).

(** [matrix_transposition]. *)
Definition matrix_transposition (matrix_1 : Matrix) : outcome Matrix :=
  do first_1 <- getitem matrix_1 0;
  comprehension
    (fun i =>
       comprehension (fun j => entry matrix_1 j i)
                     (range (List.length matrix_1)))
    (range (List.length first_1)).

(** A matrix of [rows] rows that all have [cols] entries. *)
Definition rectangular (rows cols : nat) (m : Matrix) : Prop :=
  List.length m = rows /\ Forall (fun row => List.length row = cols) m.

(** Entry [(i, j)] of a matrix, 0 outside of it. *)
Definition at_ (m : Matrix) (i j : nat) : Z := nth j (nth i m []) 0.

(** Column [j] of a matrix. *)
Definition column (m : Matrix) (j : nat) : list Z :=
  map (fun row => nth j row 0) m.

(** The sum of the products of the entries of two lists, position by
    position. *)
Definition dot (a b : list Z) : Z :=
  sum (map (fun p => fst p * snd p) (combine a b)).

(** The matrix of [rows] rows and [cols] columns with entry [f i j] at
    [(i, j)]. *)
Definition build (rows cols : nat) (f : nat -> nat -> Z) : Matrix :=
  map (fun i => map (fun j => f i j) (range cols)) (range rows).

(** The matrices of [tests/testsMatrix.py]. *)
Definition test_a : Matrix := [[1; 2]; [2; 1]].
Definition test_b : Matrix := [[0; 3]; [5; -1]].

(* ------------------------------------------------------------------ *)
(** * Properties *)

(** ** Scoring *)

Section Scoring.

Variable target : Z.

Lemma closed_form_step_fun : forall s t u,
  closed_form_step target s t -> closed_form_step target s u -> t = u.
Proof.
  intros s t u Ht Hu.
  inversion Ht; subst.
  inversion Hu; subst.
  reflexivity.
Qed.

(** The source loop is a run of the specification's loop up to a state
    where its condition fails. *)
Lemma promote_aces_run : forall aces score,
  exists aces_left,
    clos_refl_trans_1n _ (closed_form_step target)
      (score, Z.of_nat aces) (promote_aces aces score target, aces_left)
    /\ closed_form_done target (promote_aces aces score target, aces_left).
Proof.
  induction aces as [|aces IH]; intros score.
  - exists 0.
    split; [apply Relation_Operators.rt1n_refl|].
    unfold closed_form_done; simpl; lia.
  - cbn [promote_aces].
    destruct (score <=? target - 10) eqn:E.
    + apply Z.leb_le in E.
      destruct (IH (score + 10)) as [left [Hrun Hdone]].
      exists left.
      split; [|exact Hdone].
      apply (Relation_Operators.rt1n_trans _ _ _ (score + 10, Z.of_nat aces));
        [|exact Hrun].
      replace (Z.of_nat aces) with (Z.of_nat (S aces) - 1) by lia.
      constructor; lia.
    + apply Z.leb_gt in E.
      exists (Z.of_nat (S aces)).
      split; [apply Relation_Operators.rt1n_refl|].
      unfold closed_form_done; simpl; lia.
Qed.

(** A finished run of the specification's loop ends where the source
    loop ends. *)
Lemma closed_form_run_unique : forall s t,
  clos_refl_trans_1n _ (closed_form_step target) s t ->
  closed_form_done target t ->
  forall aces, snd s = Z.of_nat aces ->
  fst t = promote_aces aces (fst s) target.
Proof.
  induction 1 as [[score a]|[score a] y z Hstep Hrest IH];
    intros Hdone aces Ha; cbn [fst snd] in *.
  - unfold closed_form_done in Hdone; cbn [fst snd] in Hdone.
    destruct aces as [|aces]; [reflexivity|].
    cbn [promote_aces].
    destruct (score <=? target - 10) eqn:E; [|reflexivity].
    apply Z.leb_le in E; lia.
  - inversion Hstep; subst.
    destruct aces as [|k]; [lia|].
    cbn [promote_aces].
    destruct (score <=? target - 10) eqn:E;
      [|apply Z.leb_gt in E; lia].
    apply (IH Hdone k); cbn [snd]; lia.
Qed.

(** The number of promotions, in one expression. *)
Lemma promote_aces_formula : forall aces score,
  promote_aces aces score target =
  score + 10 * Z.min (Z.of_nat aces) (Z.max 0 ((target - score) / 10)).
Proof.
  induction aces as [|aces IH]; intros score.
  - cbn [promote_aces Z.of_nat]. lia.
  - cbn [promote_aces].
    destruct (score <=? target - 10) eqn:E.
    + apply Z.leb_le in E.
      rewrite IH.
      replace (target - (score + 10)) with ((target - score) + (-1) * 10)
        by lia.
      rewrite Z.div_add by lia.
      assert (1 <= (target - score) / 10)
        by (apply Z.div_le_lower_bound; lia).
      lia.
    + apply Z.leb_gt in E.
      assert ((target - score) / 10 < 1)
        by (apply Z.div_lt_upper_bound; lia).
      lia.
Qed.

(** Promotion never takes a score that was within the target beyond it,
and never lowers a score. *)
Lemma promote_aces_bounds : forall aces score,
  score <= promote_aces aces score target
  /\ (score <= target -> promote_aces aces score target <= target).
Proof.
  induction aces as [|aces IH]; intros score.
  - cbn [promote_aces]. lia.
  - cbn [promote_aces].
    destruct (score <=? target - 10) eqn:E.
    + apply Z.leb_le in E.
      destruct (IH (score + 10)) as [Hlow Hhigh]. lia.
    + lia.
Qed.

End Scoring.

(** C3. For every hand and target, [calculate_score] returns exactly the
    value the closed form of the specification produces: the loop that
    starts at the sum of the card values and adds 10 per Ace while an Ace
    remains and the score is at most [target - 10] ends in that score and
    in no other.  The hand 10, 10, 2 under target 21 scores 22. *)
Theorem calculate_score_closed_form :
  (forall (h : Hand) (target score : Z),
      closed_form_score h target score <-> calculate_score h target = score)
  /\ calculate_score
       [mkCard "Hearts" 10; mkCard "Diamonds" 10; mkCard "Clubs" 2] 21 = 22.
Proof.
  split; [|reflexivity].
  intros h target score.
  unfold closed_form_score, calculate_score.
  split.
  - intros [aces_left [Hrun Hdone]].
    symmetry.
    exact (closed_form_run_unique target _ _ Hrun Hdone _ eq_refl).
  - intros <-.
    apply promote_aces_run.
Qed.

(** ** Strategies *)

Lemma mod2_eqb_Even : forall s, (s mod 2 =? 0) = true <-> Z.Even s.
Proof.
  intros s.
  rewrite Z.eqb_eq, Z.mod_divide by lia.
  unfold Z.divide, Z.Even.
  split; intros [k Hk]; exists k; lia.
Qed.

Lemma IntuitiveBot_decide_true : forall h t,
  IntuitiveBot_decide h t = true <->
  (Z.of_nat (List.length h) < 2 /\ calculate_score h t < 15)
  \/ (Z.of_nat (List.length h) = 2 /\ calculate_score h t < 17).
Proof.
  intros h t.
  unfold IntuitiveBot_decide, cards.
  destruct (Z.of_nat (List.length h) <? 2) eqn:E2;
    destruct (calculate_score h t <? 15) eqn:E15;
    destruct (Z.of_nat (List.length h) =? 2) eqn:Eq2;
    destruct (calculate_score h t <? 17) eqn:E17;
    cbn [andb];
    rewrite ?Z.ltb_lt, ?Z.ltb_ge, ?Z.eqb_eq, ?Z.eqb_neq in *;
    split; intros H; try reflexivity; try discriminate; lia.
Qed.

(** C4. For every bot of the classes of [bot.py] and every target [t],
    [decide(t)] returns True exactly when the table's condition for the
    bot's strategy tag holds of the score [s] of its hand: conservative
    [s < t - 5], aggressive [s < t - 2], mixed [s] even, balanced
    [s < t - 4], intuitive (fewer than 2 cards and [s < 15]) or (exactly 2
    cards and [s < 17]), no tag [s < 17]. *)
Theorem decide_follows_table : forall (b : Bot) (t : Z),
  decide b t = true <->
  table_condition (strategy (bot_class b))
    (calculate_score (hand b) t) t (Z.of_nat (List.length (cards (hand b)))).
Proof.
  intros b t.
  unfold decide, class_decide, strategy, cards.
  generalize (hand b); intros h.
  destruct (bot_class b); cbn -[calculate_score Z.of_nat IntuitiveBot_decide].
  - unfold Bot_decide. apply Z.ltb_lt.
  - unfold _build. rewrite Z.ltb_lt.
    intuition (try discriminate).
  - unfold _build. rewrite Z.ltb_lt.
    intuition (try discriminate).
  - rewrite mod2_eqb_Even.
    intuition (try discriminate).
  - unfold _build. rewrite Z.ltb_lt.
    intuition (try discriminate).
  - rewrite IntuitiveBot_decide_true.
    intuition (try discriminate).
Qed.

(** ** Bets and construction *)

(** C7. [place_bet(amount)] raises exactly when [amount] is negative or
    exceeds the balance; when it returns, [current_bet] is [amount] and the
    balance (and everything else) is as it was: nothing is deducted. *)
Theorem place_bet_validation : forall (self : Bot) (amount : Z),
  (raises (place_bet self amount) = true
   <-> amount < 0 \/ amount > balance self)
  /\ match place_bet self amount with
     | ValueError _ => amount < 0 \/ amount > balance self
     | Ok self' =>
         current_bet self' = amount
         /\ balance self' = balance self
         /\ set_current_bet self' (current_bet self) = self
     end.
Proof.
  intros self amount.
  unfold place_bet.
  destruct (amount <? 0) eqn:Eneg.
  - apply Z.ltb_lt in Eneg. cbn [raises]. intuition.
  - apply Z.ltb_ge in Eneg.
    destruct (amount >? balance self) eqn:Ebig.
    + apply Z.gtb_lt in Ebig. cbn [raises].
      assert (amount > balance self) by lia. intuition.
    + assert (amount <= balance self).
      { rewrite Z.gtb_ltb in Ebig. apply Z.ltb_ge in Ebig. exact Ebig. }
      cbn [raises].
      split; [split; [discriminate | lia]|].
      destruct self; repeat split.
Qed.

Lemma Game_init_raises : forall rng bots max_steps target,
  raises (Game_init rng bots max_steps target) = true <-> max_steps <= 0.
Proof.
  intros rng bots max_steps target.
  unfold Game_init.
  destruct (max_steps <=? 0) eqn:E; cbn.
  - apply Z.leb_le in E. tauto.
  - apply Z.leb_gt in E. split; [discriminate | lia].
Qed.

(** C8. Constructing a game raises exactly when [max_steps <= 0],
    whatever the other arguments; when it succeeds, [target_score] is 21
    if none was given and 15 if 15 was given. *)
Theorem Game_init_validation : forall rng bots max_steps,
  (forall target,
      raises (Game_init rng bots max_steps target) = true <-> max_steps <= 0)
  /\ match Game_init rng bots max_steps None with
     | ValueError _ => max_steps <= 0
     | Ok g => target_score g = 21
     end
  /\ match Game_init rng bots max_steps (Some 15) with
     | ValueError _ => max_steps <= 0
     | Ok g => target_score g = 15
     end.
Proof.
  intros rng bots max_steps.
  split; [intros target; apply Game_init_raises|].
  unfold Game_init.
  destruct (max_steps <=? 0) eqn:E.
  - apply Z.leb_le in E. split; exact E.
  - split; reflexivity.
Qed.

(** C10. With a positive [max_steps], an explicit [target_score] of 0
    gives a game whose [target_score] is 21, and every explicit nonzero
    value is stored as given. *)
Theorem Game_init_falsy_target : forall rng bots max_steps,
  0 < max_steps ->
  (exists g, Game_init rng bots max_steps (Some 0) = Ok g
             /\ target_score g = 21)
  /\ (forall t, t <> 0 ->
        exists g, Game_init rng bots max_steps (Some t) = Ok g
                  /\ target_score g = t).
Proof.
  intros rng bots max_steps Hpos.
  unfold Game_init.
  destruct (max_steps <=? 0) eqn:E; [apply Z.leb_le in E; lia|].
  split.
  - eexists; split; reflexivity.
  - intros t Ht.
    eexists; split; [reflexivity|].
    cbn.
    destruct (t =? 0) eqn:E0; [apply Z.eqb_eq in E0; lia | reflexivity].
Qed.

Lemma Game_init_falsy_target_witness :
  0 < 1
  /\ (exists g, Game_init (@rev Card) demo_bots 1 (Some 0) = Ok g
                /\ target_score g = 21)
  /\ (exists g, Game_init (@rev Card) demo_bots 1 (Some 15) = Ok g
                /\ target_score g = 15).
Proof.
  assert (Hpos : 0 < 1) by lia.
  destruct (Game_init_falsy_target (@rev Card) demo_bots 1 Hpos) as [H0 Ht].
  split; [exact Hpos|].
  split; [exact H0|].
  apply Ht. discriminate.
Defined.

(** ** Settlement *)

Lemma upd_same : forall st r b, upd st r b r = b.
Proof.
  intros st r b. unfold upd. rewrite Nat.eqb_refl. reflexivity.
Qed.

Lemma upd_other : forall st r b r', r' <> r -> upd st r b r' = st r'.
Proof.
  intros st r b r' Hne. unfold upd.
  destruct (Nat.eqb r' r) eqn:E; [|reflexivity].
  apply Nat.eqb_eq in E. contradiction.
Qed.

Section Pot.

Variable winner : Ref.

Lemma settle_same : forall st bot, settle winner st bot bot = settled winner (st bot) bot.
Proof.
  intros st bot. unfold settle, settled.
  rewrite upd_same.
  destruct (Nat.eqb bot winner); cbn [negb]; [reflexivity|].
  rewrite upd_same. reflexivity.
Qed.

Lemma settle_other : forall st bot r, r <> bot -> settle winner st bot r = st r.
Proof.
  intros st bot r Hne. unfold settle.
  rewrite upd_other by exact Hne.
  destruct (Nat.eqb bot winner); cbn [negb]; [reflexivity|].
  apply upd_other. exact Hne.
Qed.

Lemma settled_twice : forall b r, settled winner (settled winner b r) r = settled winner b r.
Proof.
  intros b r. unfold settled.
  destruct (Nat.eqb r winner); destruct b;
    unfold set_current_bet, set_balance;
    cbn [name balance current_bet is_active hand bot_class];
    [reflexivity|].
  f_equal. lia.
Qed.

(** The whole loop: a bot of the list is settled once, however often it
    occurs; any other bot is untouched. *)
Lemma settle_loop : forall bots st r,
  fold_left (settle winner) bots st r =
  if in_dec Nat.eq_dec r bots then settled winner (st r) r else st r.
Proof.
  induction bots as [|bot rest IH]; intros st r.
  - reflexivity.
  - cbn [fold_left].
    rewrite IH.
    destruct (Nat.eq_dec bot r) as [->|Hne].
    + rewrite settle_same.
      destruct (in_dec Nat.eq_dec r rest) as [Hin|Hout];
        destruct (in_dec Nat.eq_dec r (r :: rest)) as [_|Hout'].
      * apply settled_twice.
      * exfalso. apply Hout'. left. reflexivity.
      * reflexivity.
      * exfalso. apply Hout'. left. reflexivity.
    + rewrite settle_other by (intros E; apply Hne; symmetry; exact E).
      destruct (in_dec Nat.eq_dec r rest) as [Hin|Hout];
        destruct (in_dec Nat.eq_dec r (bot :: rest)) as [Hin'|Hout'];
        try reflexivity.
      * exfalso. apply Hout'. right. exact Hin.
      * exfalso. destruct Hin' as [E|Hin']; [exact (Hne E) | exact (Hout Hin')].
Qed.

(** The store [_distribute_pot] returns, pointwise. *)
Lemma _distribute_pot_store : forall g st r,
  snd (_distribute_pot g st winner) r =
  let total_bet :=
    sum (map (fun b => current_bet (st b))
             (filter (fun b => negb (Nat.eqb b winner)) (_bots g))) in
  let st1 :=
    upd st winner
        (set_balance (st winner) (balance (st winner) + total_bet)) in
  if in_dec Nat.eq_dec r (_bots g) then settled winner (st1 r) r else st1 r.
Proof.
  intros g st r.
  unfold _distribute_pot. cbn [snd].
  apply (settle_loop (_bots g)).
Qed.

End Pot.

(** C1. Settlement with a winner [w]: after [_conclude], the balance of
    [w] has grown by the sum of [current_bet] over the entries of the
    bot list other than [w]; every other bot of the list has lost exactly
    its own [current_bet], whatever its hand; and every bot of the list
    has [current_bet] 0. *)
Theorem conclude_settles_pot : forall (g : Game) (st : Store) (w : Ref) reason,
  let st' := snd (_conclude g st (Some w) reason) in
  balance (st' w) =
    balance (st w)
    + sum (map (fun b => current_bet (st b))
               (filter (fun b => negb (Nat.eqb b w)) (_bots g)))
  /\ (forall b, In b (_bots g) -> b <> w ->
        balance (st' b) = balance (st b) - current_bet (st b))
  /\ (forall b, In b (_bots g) -> current_bet (st' b) = 0).
Proof.
  intros g st w reason.
  assert (Hst' : forall r,
    snd (_conclude g st (Some w) reason) r = snd (_distribute_pot g st w) r).
  { intros r. unfold _conclude.
    destruct (_distribute_pot g st w) as [total st1]. reflexivity. }
  cbv zeta.
  repeat split.
  - rewrite Hst', _distribute_pot_store. cbv zeta.
    rewrite upd_same. unfold settled. rewrite Nat.eqb_refl.
    destruct (in_dec Nat.eq_dec w (_bots g)); reflexivity.
  - intros b Hin Hne.
    rewrite Hst', _distribute_pot_store. cbv zeta.
    rewrite upd_other by exact Hne.
    destruct (in_dec Nat.eq_dec b (_bots g)) as [_|Hout]; [|contradiction].
    unfold settled.
    destruct (Nat.eqb b w) eqn:E; [apply Nat.eqb_eq in E; contradiction|].
    reflexivity.
  - intros b Hin.
    rewrite Hst', _distribute_pot_store. cbv zeta.
    destruct (in_dec Nat.eq_dec b (_bots g)) as [_|Hout]; [|contradiction].
    reflexivity.
Qed.

Lemma conclude_settles_pot_witness :
  let st' := snd (_conclude demo_game demo_store (Some 0%nat) (Some LastRemaining)) in
  balance (st' 0%nat) = 1300
  /\ (In 1%nat (_bots demo_game) /\ 1%nat <> 0%nat /\ balance (st' 1%nat) = 800)
  /\ (In 2%nat (_bots demo_game) /\ current_bet (st' 2%nat) = 0).
Proof.
  destruct (conclude_settles_pot demo_game demo_store 0%nat (Some LastRemaining))
    as [Hw [Hothers Hbets]].
  assert (H1 : In 1%nat (_bots demo_game)) by (cbn; tauto).
  assert (H2 : In 2%nat (_bots demo_game)) by (cbn; tauto).
  assert (Hne : 1%nat <> 0%nat) by discriminate.
  cbv zeta.
  split; [etransitivity; [exact Hw | reflexivity]|].
  split.
  - split; [exact H1|]. split; [exact Hne|].
    etransitivity; [exact (Hothers 1%nat H1 Hne) | reflexivity].
  - split; [exact H2|]. exact (Hbets 2%nat H2).
Defined.

(** C2 as stated fails: concluded without a winner, the bots of
    [main.py] keep their bets (100, 200 and 100), none is reset to 0. *)
Lemma conclude_no_winner_keeps_bets :
  ~ ((forall b, In b (_bots demo_game) ->
        balance (snd (_conclude demo_game demo_store None None) b)
        = balance (demo_store b))
     /\ (forall b, In b (_bots demo_game) ->
           current_bet (snd (_conclude demo_game demo_store None None) b) = 0)).
Proof.
  intros [_ Hreset].
  specialize (Hreset 0%nat (or_introl eq_refl)).
  cbn in Hreset.
  discriminate Hreset.
Qed.

(** C2, amended. Concluding without a winner leaves the store as it is:
    no bot's balance changes and no bot's [current_bet] changes; only
    lines are logged. *)
Theorem conclude_no_winner_frame : forall (g : Game) (st : Store) reason,
  snd (_conclude g st None reason) = st
  /\ (forall b,
        balance (snd (_conclude g st None reason) b) = balance (st b)
        /\ current_bet (snd (_conclude g st None reason) b)
           = current_bet (st b))
  /\ _deck (fst (_conclude g st None reason)) = _deck g
  /\ _current_step (fst (_conclude g st None reason)) = _current_step g.
Proof.
  intros g st reason.
  cbn [_conclude snd fst].
  split; [reflexivity|].
  split; [intros b; split; reflexivity|].
  unfold _show_final_state.
  assert (H : forall bots g0,
    _deck (fold_left
      (fun g bot => _log g (FinalBalance (name (st bot)) (balance (st bot))))
      bots g0) = _deck g0
    /\ _current_step (fold_left
      (fun g bot => _log g (FinalBalance (name (st bot)) (balance (st bot))))
      bots g0) = _current_step g0).
  { induction bots as [|b bots IH]; intros g0; [split; reflexivity|].
    cbn [fold_left]. destruct (IH (_log g0 (FinalBalance (name (st b)) (balance (st b))))) as [IH1 IH2].
    rewrite IH1, IH2. split; reflexivity. }
  cbn [_log _deck _current_step].
  destruct (H (_bots g) (_log g (Line "Final Game State"))) as [H1 H2].
  rewrite H1, H2. split; reflexivity.
Qed.

(** ** Winner by heuristic *)

Section ListSearch.

Context {A : Type}.

(** [next(x for x in l if f x)] finds the first match. *)
Lemma find_first : forall (f : A -> bool) l x,
  find f l = Some x ->
  exists before after,
    l = before ++ x :: after /\ f x = true
    /\ forall y, In y before -> f y = false.
Proof.
  intros f. induction l as [|a l IH]; intros x Hfind; [discriminate|].
  cbn [find] in Hfind.
  destruct (f a) eqn:Ea.
  - injection Hfind as <-.
    exists [], l. repeat split; [exact Ea | intros y []].
  - destruct (IH x Hfind) as [before [after [-> [Hx Hbefore]]]].
    exists (a :: before), after.
    repeat split; [exact Hx|].
    intros y [<-|Hy]; [exact Ea | exact (Hbefore y Hy)].
Qed.

Lemma find_none : forall (f : A -> bool) l,
  find f l = None -> forall y, In y l -> f y = false.
Proof.
  intros f. induction l as [|a l IH]; intros Hfind y Hy; [destruct Hy|].
  cbn [find] in Hfind.
  destruct (f a) eqn:Ea; [discriminate|].
  destruct Hy as [<-|Hy]; [exact Ea | exact (IH Hfind y Hy)].
Qed.

(** Searching the filtered list is searching the list, when every match
    passes the filter. *)
Lemma find_filter : forall (f p : A -> bool) l,
  (forall x, f x = true -> p x = true) ->
  find f (filter p l) = find f l.
Proof.
  intros f p l Hfp. induction l as [|a l IH]; [reflexivity|].
  cbn [filter find].
  destruct (p a) eqn:Ep.
  - cbn [find]. rewrite IH. reflexivity.
  - destruct (f a) eqn:Ea; [|exact IH].
    rewrite (Hfp a Ea) in Ep. discriminate.
Qed.

(** A position in the filtered list comes from a position in the list. *)
Lemma filter_split : forall (p : A -> bool) l l1 x l2,
  filter p l = l1 ++ x :: l2 ->
  exists a b, l = a ++ x :: b /\ filter p a = l1 /\ filter p b = l2.
Proof.
  intros p. induction l as [|y l IH]; intros l1 x l2 H.
  - destruct l1; discriminate.
  - cbn [filter] in H.
    destruct (p y) eqn:Ep.
    + destruct l1 as [|z l1].
      * injection H as -> Hl.
        exists [], l. repeat split. exact Hl.
      * injection H as -> Hl.
        destruct (IH l1 x l2 Hl) as [a [b [-> [Ha Hb]]]].
        exists (z :: a), b.
        repeat split; [|exact Hb].
        cbn [filter]. rewrite Ep, Ha. reflexivity.
    + destruct (IH l1 x l2 H) as [a [b [-> [Ha Hb]]]].
      exists (y :: a), b.
      repeat split; [|exact Hb].
      cbn [filter]. rewrite Ep. exact Ha.
Qed.

(** [max(best :: l, key=key)] is the first item whose key is largest. *)
Lemma max_from_first : forall (key : A -> Z) l best,
  exists before after,
    best :: l = before ++ max_from key best l :: after
    /\ (forall y, In y (best :: l) -> key y <= key (max_from key best l))
    /\ (forall y, In y before -> key y < key (max_from key best l)).
Proof.
  intros key. induction l as [|x l IH]; intros best.
  - exists [], []. cbn [max_from].
    repeat split.
    + intros y [<-|[]]. lia.
    + intros y [].
  - cbn [max_from].
    destruct (key x >? key best) eqn:E.
    + apply Z.gtb_lt in E.
      destruct (IH x) as [before [after [Heq [Hmax Hfirst]]]].
      exists (best :: before), after.
      repeat split.
      * cbn [app]. rewrite <- Heq. reflexivity.
      * intros y [<-|Hy]; [|exact (Hmax y Hy)].
        specialize (Hmax x (or_introl eq_refl)). lia.
      * intros y [<-|Hy]; [|exact (Hfirst y Hy)].
        specialize (Hmax x (or_introl eq_refl)). lia.
    + rewrite Z.gtb_ltb in E. apply Z.ltb_ge in E.
      destruct (IH best) as [before [after [Heq [Hmax Hfirst]]]].
      destruct before as [|b0 before].
      * cbn [app] in Heq. injection Heq as Hbest Hl.
        exists [], (x :: after).
        repeat split.
        -- cbn [app]. f_equal; [exact Hbest | f_equal; exact Hl].
        -- intros y [<-|[<-|Hy]].
           ++ apply Hmax. left. reflexivity.
           ++ rewrite <- Hbest. exact E.
           ++ apply Hmax. right. exact Hy.
        -- intros y [].
      * cbn [app] in Heq. injection Heq as <- Hl.
        exists (best :: x :: before), after.
        repeat split.
        -- cbn [app]. do 2 f_equal. exact Hl.
        -- intros y [<-|[<-|Hy]].
           ++ apply Hmax. left. reflexivity.
           ++ specialize (Hfirst best (or_introl eq_refl)). lia.
           ++ apply Hmax. right. exact Hy.
        -- intros y [<-|[<-|Hy]].
           ++ apply Hfirst. left. reflexivity.
           ++ specialize (Hfirst best (or_introl eq_refl)). lia.
           ++ apply Hfirst. right. exact Hy.
Qed.

End ListSearch.

(** C5. [_determine_winner] follows the heuristic: no winner when every
    bot's score exceeds [target_score]; otherwise the first bot in
    construction order whose score equals [target_score], if there is
    one; otherwise the first bot that attains the highest score among
    those whose score is at most [target_score]. *)
Theorem determine_winner_heuristic : forall (g : Game) (st : Store),
  heuristic_winner (_bots g)
    (fun b => calculate_score (hand (st b)) (target_score g))
    (target_score g)
    (fst (_determine_winner g st)).
Proof.
  intros g st.
  unfold _determine_winner, heuristic_winner.
  pose (score := fun b => calculate_score (hand (st b)) (target_score g)).
  pose (t := target_score g).
  pose (valid_b := fun b : Ref => score b <=? t).
  pose (exact_b := fun b : Ref => score b =? t).
  change (fun b : Ref => calculate_score (hand (st b)) (target_score g)
                         <=? target_score g) with valid_b.
  change (fun b : Ref => calculate_score (hand (st b)) (target_score g)
                         =? target_score g) with exact_b.
  change (fun b : Ref => calculate_score (hand (st b)) (target_score g))
    with score.
  change (target_score g) with t.
  assert (Hev : forall b, exact_b b = true -> valid_b b = true).
  { intros b Hb. unfold exact_b, valid_b in *.
    apply Z.eqb_eq in Hb. apply Z.leb_le. lia. }
  destruct (filter valid_b (_bots g)) as [|first others] eqn:Hvalid.
  - left. split; [|reflexivity].
    intros b Hb.
    destruct (valid_b b) eqn:Evb.
    + assert (Hin : In b (filter valid_b (_bots g)))
        by (apply filter_In; split; assumption).
      rewrite Hvalid in Hin. destruct Hin.
    + unfold valid_b in Evb. apply Z.leb_gt in Evb.
      change (score b > t). lia.
  - right.
    rewrite <- Hvalid, (find_filter exact_b valid_b (_bots g) Hev).
    destruct (find exact_b (_bots g)) as [perfect|] eqn:Hfind.
    + left.
      destruct (find_first exact_b _ _ Hfind)
        as [before [after [Hbots [Hp Hbefore]]]].
      exists before, perfect, after.
      repeat split.
      * exact Hbots.
      * apply Z.eqb_eq. exact Hp.
      * intros b' Hb'. apply Z.eqb_neq. exact (Hbefore b' Hb').
    + right.
      destruct (max_from_first score others first)
        as [vbefore [vafter [Hsplit [Hmax Hfirst]]]].
      set (m := max_from score first others) in *.
      rewrite <- Hvalid in Hsplit.
      destruct (filter_split valid_b _ _ _ _ Hsplit)
        as [before [after [Hbots [Hvb Hva]]]].
      assert (Hm : In m (filter valid_b (_bots g))).
      { rewrite Hsplit. apply in_elt. }
      apply filter_In in Hm. destruct Hm as [_ Hm].
      exists before, m, after.
      repeat split.
      * exact Hbots.
      * intros b' Hb'. apply Z.eqb_neq.
        exact (find_none exact_b _ Hfind b' Hb').
      * apply Z.leb_le. exact Hm.
      * intros b' Hb' Hle.
        apply Hmax. rewrite <- Hvalid.
        apply filter_In. split; [exact Hb'|].
        apply Z.leb_le. exact Hle.
      * intros b' Hb' Hle.
        apply Hfirst. rewrite <- Hvb.
        apply filter_In. split; [exact Hb'|].
        apply Z.leb_le. exact Hle.
Qed.

(** ** The deck *)

Lemma Card_eqb_eq : forall c d, Card_eqb c d = true <-> c = d.
Proof.
  intros [s r] [s' r']. unfold Card_eqb. cbn [suit rank].
  rewrite andb_true_iff, String.eqb_eq, Z.eqb_eq.
  split; [intros [-> ->]; reflexivity | intros E; injection E; auto].
Qed.

Lemma distinct_b_NoDup : forall l, distinct_b l = true -> NoDup l.
Proof.
  induction l as [|c l IH]; intros H; [constructor|].
  cbn [distinct_b] in H.
  apply andb_true_iff in H. destruct H as [Hc Hl].
  constructor; [|exact (IH Hl)].
  intros Hin.
  apply negb_true_iff in Hc.
  assert (Hex : existsb (Card_eqb c) l = true).
  { apply existsb_exists. exists c. split; [exact Hin|].
    apply Card_eqb_eq. reflexivity. }
  rewrite Hex in Hc. discriminate.
Qed.

Lemma fresh_cards_NoDup : NoDup fresh_cards.
Proof.
  apply distinct_b_NoDup. vm_compute. reflexivity.
Qed.

Lemma ranks_spec : forall r, In r ranks <-> 1 <= r <= 13.
Proof.
  intros r. unfold ranks. rewrite in_map_iff.
  split.
  - intros [n [<- Hn]]. apply in_seq in Hn. lia.
  - intros Hr. exists (Z.to_nat r).
    split; [lia|]. apply in_seq. lia.
Qed.

(** One card per suit and rank. *)
Lemma fresh_cards_spec : forall c,
  In c fresh_cards <-> In (suit c) suits /\ 1 <= rank c <= 13.
Proof.
  intros [s r]. unfold fresh_cards. cbn [suit rank].
  rewrite in_flat_map, <- ranks_spec.
  split.
  - intros [s' [Hs Hc]]. apply in_map_iff in Hc.
    destruct Hc as [r' [E Hr]]. injection E as -> ->. split; assumption.
  - intros [Hs Hr]. exists s. split; [exact Hs|].
    apply in_map_iff. exists r. split; [reflexivity | exact Hr].
Qed.

Lemma draw_empty : draw [] = (None, []).
Proof. reflexivity. Qed.

Lemma draw_top : forall d c, draw (d ++ [c]) = (Some c, d).
Proof.
  intros d c. unfold draw.
  rewrite rev_app_distr. cbn [rev app].
  rewrite rev_involutive. reflexivity.
Qed.

Lemma draw_many_empty : forall n, draw_many n [] = (repeat None n, []).
Proof.
  induction n as [|n IH]; [reflexivity|].
  cbn [draw_many]. rewrite draw_empty, IH. reflexivity.
Qed.

(** Drawing takes the cards from the end of the list, one by one, and
    then signals empty for ever. *)
Lemma draw_many_rev : forall l extra,
  draw_many (List.length l + extra) (rev l)
  = (map Some l ++ repeat None extra, []).
Proof.
  induction l as [|c l IH]; intros extra.
  - apply draw_many_empty.
  - cbn [List.length Nat.add draw_many rev].
    rewrite draw_top, IH. reflexivity.
Qed.

(** C6. A fresh deck, shuffled by a source that reorders its list: 52
    draws return 52 cards with pairwise distinct (suit, rank) pairs, one
    for every suit and rank from 1 to 13, and leave the deck empty; the
    53rd draw returns [None], as every draw on an empty deck does. *)
Theorem Deck_draws_every_card_once : forall rng : Rng,
  shuffles rng ->
  exists drawn : list Card,
    draw_many 52 (Deck_init rng) = (map Some drawn, [])
    /\ List.length drawn = 52%nat
    /\ NoDup (map (fun c => (suit c, rank c)) drawn)
    /\ (forall s r, In s suits -> 1 <= r <= 13 -> In (mkCard s r) drawn)
    /\ (forall c, In c drawn -> In (suit c) suits /\ 1 <= rank c <= 13)
    /\ fst (draw_many 53 (Deck_init rng)) = map Some drawn ++ [None]
    /\ draw [] = (None, []).
Proof.
  intros rng Hrng.
  unfold Deck_init.
  pose proof (Hrng fresh_cards) as Hperm.
  set (d := rng fresh_cards) in *.
  assert (Hlen : List.length (rev d) = 52%nat).
  { rewrite length_rev, <- (Permutation_length Hperm). reflexivity. }
  assert (Hrev : Permutation fresh_cards (rev d)).
  { etransitivity; [exact Hperm | apply Permutation_rev]. }
  exists (rev d).
  split; [|split; [|split; [|split; [|split; [|split]]]]].
  - pose proof (draw_many_rev (rev d) 0) as H.
    rewrite Hlen, rev_involutive in H. cbn [Nat.add repeat] in H.
    rewrite app_nil_r in H. exact H.
  - exact Hlen.
  - apply Finite.Injective_map_NoDup.
    + intros [s r] [s' r'] E. cbn [suit rank] in E.
      injection E as -> ->. reflexivity.
    + exact (Permutation_NoDup Hrev fresh_cards_NoDup).
  - intros s r Hs Hr.
    apply (Permutation_in _ Hrev).
    apply fresh_cards_spec. split; assumption.
  - intros c Hc.
    apply fresh_cards_spec.
    exact (Permutation_in _ (Permutation_sym Hrev) Hc).
  - pose proof (draw_many_rev (rev d) 1) as H.
    rewrite Hlen, rev_involutive in H.
    change (draw_many 53 d) with (draw_many (52 + 1) d).
    rewrite H. reflexivity.
  - reflexivity.
Qed.

Lemma rev_shuffles : shuffles (@rev Card).
Proof.
  intros l. apply Permutation_rev.
Qed.

Lemma Deck_draws_every_card_once_witness :
  shuffles (@rev Card)
  /\ exists drawn : list Card,
       draw_many 52 (Deck_init (@rev Card)) = (map Some drawn, [])
       /\ List.length drawn = 52%nat
       /\ fst (draw_many 53 (Deck_init (@rev Card))) = map Some drawn ++ [None].
Proof.
  split; [exact rev_shuffles|].
  destruct (Deck_draws_every_card_once (@rev Card) rev_shuffles)
    as [drawn [H52 [Hlen [_ [_ [_ [H53 _]]]]]]].
  exists drawn. repeat split; assumption.
Defined.

(** ** The round *)

Lemma same_session_refl : forall g, same_session g g.
Proof.
  intros g. repeat split.
Qed.

Lemma same_session_trans : forall g1 g2 g3,
  same_session g1 g2 -> same_session g2 g3 -> same_session g1 g3.
Proof.
  unfold same_session.
  intros g1 g2 g3 [A1 [A2 [A3 A4]]] [B1 [B2 [B3 B4]]].
  repeat split; congruence.
Qed.

Lemma same_session_log : forall g e, same_session g (_log g e).
Proof.
  intros g e. repeat split.
Qed.

Lemma same_session_deck : forall g d, same_session g (set_deck g d).
Proof.
  intros g d. repeat split.
Qed.

Lemma same_session_log_all : forall (A : Type) (line : A -> Event) l g,
  same_session g (fold_left (fun g x => _log g (line x)) l g).
Proof.
  intros A line. induction l as [|x l IH]; intros g.
  - apply same_session_refl.
  - cbn [fold_left].
    eapply same_session_trans; [apply same_session_log | apply IH].
Qed.

Create HintDb session.
#[local] Hint Resolve same_session_refl same_session_log same_session_deck
  : session.

(** The loop of a round changes the deck, the log and the store only. *)
Lemma _play_round_for_session : forall bots g st,
  same_session g (snd (fst (_play_round_for bots g st))).
Proof.
  induction bots as [|bot rest IH]; intros g st.
  - apply same_session_refl.
  - cbn [_play_round_for].
    destruct (negb (is_active (st bot))); [apply IH|].
    destruct (calculate_score (hand (st bot)) (target_score g)
              >=? target_score g).
    + eapply same_session_trans; [|apply IH]. auto with session.
    + destruct (decide (st bot) decide_default_target).
      * destruct (draw (_deck g)) as [[card|] d].
        -- eapply same_session_trans; [|apply IH].
           eapply same_session_trans;
             [apply same_session_deck | apply same_session_log].
        -- cbn [fst snd].
           eapply same_session_trans;
             [apply same_session_deck | apply same_session_log].
      * eapply same_session_trans; [|apply IH]. auto with session.
Qed.

Lemma _play_round_session : forall g st,
  same_session g (fst (_play_round g st)).
Proof.
  intros g st. unfold _play_round.
  pose proof (_play_round_for_session (_bots g)
                (_log g (RoundHeader (_current_step g + 1))) st) as H.
  destruct (_play_round_for (_bots g)
              (_log g (RoundHeader (_current_step g + 1))) st)
    as [[flow g1] st1].
  cbn [fst snd] in *.
  eapply same_session_trans; [apply same_session_log|].
  eapply same_session_trans; [exact H|].
  unfold _show_state. apply same_session_log.
Qed.

(** A bot that is not in the list is not touched by the loop. *)
Lemma _play_round_for_frame : forall bots g st r,
  ~ In r bots -> snd (_play_round_for bots g st) r = st r.
Proof.
  induction bots as [|bot rest IH]; intros g st r Hr.
  - reflexivity.
  - assert (Hne : r <> bot) by (intros ->; apply Hr; left; reflexivity).
    assert (Hrest : ~ In r rest) by (intros H; apply Hr; right; exact H).
    cbn [_play_round_for].
    destruct (negb (is_active (st bot))); [apply IH; exact Hrest|].
    destruct (calculate_score (hand (st bot)) (target_score g)
              >=? target_score g).
    + rewrite IH by exact Hrest. apply upd_other; exact Hne.
    + destruct (decide (st bot) decide_default_target).
      * destruct (draw (_deck g)) as [[card|] d].
        -- rewrite IH by exact Hrest. apply upd_other; exact Hne.
        -- reflexivity.
      * apply IH; exact Hrest.
Qed.

(** Leaving the loop through [break] means: the bots before some bot were
    processed to the end, and that bot, active, below the target and
    deciding to hit, found the deck empty; nothing happened after. *)
Lemma _play_round_for_broke : forall bots g st g' st',
  _play_round_for bots g st = (Broke, g', st') ->
  exists before bot after g1,
    bots = before ++ bot :: after
    /\ _play_round_for before g st = (Completed, g1, st')
    /\ is_active (st' bot) = true
    /\ calculate_score (hand (st' bot)) (target_score g1) < target_score g1
    /\ decide (st' bot) decide_default_target = true
    /\ draw (_deck g1) = (None, [])
    /\ g' = _log g1 (Line "Deck is empty!").
Proof.
  induction bots as [|bot rest IH]; intros g st g' st' H.
  - discriminate.
  - cbn [_play_round_for] in H.
    destruct (negb (is_active (st bot))) eqn:Eact.
    { destruct (IH _ _ _ _ H) as [before [b [after [g1 [-> [Hpre Hrest]]]]]].
      exists (bot :: before), b, after, g1.
      split; [reflexivity|]. split; [|exact Hrest].
      cbn [_play_round_for]. rewrite Eact. exact Hpre. }
    destruct (calculate_score (hand (st bot)) (target_score g)
              >=? target_score g) eqn:Escore.
    { destruct (IH _ _ _ _ H) as [before [b [after [g1 [-> [Hpre Hrest]]]]]].
      exists (bot :: before), b, after, g1.
      split; [reflexivity|]. split; [|exact Hrest].
      cbn [_play_round_for]. rewrite Eact, Escore. exact Hpre. }
    destruct (decide (st bot) decide_default_target) eqn:Edec.
    + destruct (draw (_deck g)) as [[card|] d] eqn:Edraw.
      * destruct (IH _ _ _ _ H) as [before [b [after [g1 [-> [Hpre Hrest]]]]]].
        exists (bot :: before), b, after, g1.
        split; [reflexivity|]. split; [|exact Hrest].
        cbn [_play_round_for]. rewrite Eact, Escore, Edec, Edraw. exact Hpre.
      * injection H as <- <-.
        assert (Hempty : _deck g = []).
        { unfold draw in Edraw.
          destruct (rev (_deck g)) as [|c below] eqn:Erev; [|discriminate].
          rewrite <- (rev_involutive (_deck g)), Erev. reflexivity. }
        assert (Hd : d = []).
        { rewrite Hempty in Edraw. cbn in Edraw. congruence. }
        exists [], bot, rest, g.
        apply negb_false_iff in Eact.
        rewrite Z.geb_leb in Escore. apply Z.leb_gt in Escore.
        repeat split; try assumption.
        -- rewrite Hempty. reflexivity.
        -- subst d. rewrite <- Hempty. destruct g; reflexivity.
    + destruct (IH _ _ _ _ H) as [before [b [after [g1 [-> [Hpre Hrest]]]]]].
      exists (bot :: before), b, after, g1.
      split; [reflexivity|]. split; [|exact Hrest].
      cbn [_play_round_for]. rewrite Eact, Escore, Edec. exact Hpre.
Qed.

(** One turn of the [while] loop of [_rounds], when its condition holds. *)
Lemma _rounds_while_turn : forall fuel g st,
  _current_step g < _max_steps g ->
  _rounds_while (S fuel) g st =
  let g2 := set_current_step (fst (_play_round g st))
                             (_current_step (fst (_play_round g st)) + 1) in
  let st1 := snd (_play_round g st) in
  match termination_checks g2 st1 with
  | Won winner reason => Some (_conclude g2 st1 (Some winner) (Some reason))
  | GoOn => _rounds_while fuel g2 st1
  end.
Proof.
  intros fuel g st Hstep.
  cbn [_rounds_while].
  apply Z.ltb_lt in Hstep. rewrite Hstep.
  destruct (_play_round g st) as [g1 st1]. reflexivity.
Qed.

(** The loop of [_rounds] returns: the steps left bound its turns. *)
Lemma _rounds_while_returns : forall fuel g st,
  (Z.to_nat (_max_steps g - _current_step g) <= fuel)%nat ->
  exists res, _rounds_while fuel g st = Some res.
Proof.
  induction fuel as [|fuel IH]; intros g st Hfuel.
  - cbn [_rounds_while].
    destruct (_current_step g <? _max_steps g) eqn:E.
    + apply Z.ltb_lt in E. lia.
    + destruct (_determine_winner _ st). eexists; reflexivity.
  - destruct (Z.lt_ge_cases (_current_step g) (_max_steps g)) as [Hlt|Hge].
    + rewrite _rounds_while_turn by exact Hlt. cbv zeta.
      destruct (termination_checks _ _); [eexists; reflexivity|].
      apply IH.
      destruct (_play_round_session g st) as [_ [Hmax [Hcur _]]].
      cbn [set_current_step _max_steps _current_step].
      rewrite Hmax, Hcur. lia.
    + cbn [_rounds_while].
      apply Z.ltb_ge in Hge. rewrite Hge.
      destruct (_determine_winner _ st). eexists; reflexivity.
Qed.

(** [play] always comes to an end. *)
Lemma play_returns : forall g st, exists res, play g st = Some res.
Proof.
  intros g st. unfold play, _rounds.
  apply _rounds_while_returns.
  destruct (same_session_log_all Ref
              (fun bot => InitialLine (name (st bot)) (balance (st bot))
                                      (current_bet (st bot)))
              (_bots g) (_log g (Line "Initial Game State")))
    as [_ [Hmax [Hcur _]]].
  unfold _show_initial_state.
  rewrite Hmax, Hcur. cbn [_log _max_steps _current_step]. lia.
Qed.

(** C9. When a draw finds the deck empty during a round, the loop over the
    bots stops at that bot: the bots before it have acted, and every bot
    listed after it (and not also before it) is in the store exactly as
    it was when the round began, hand and activity flag included.  The
    round then ends as any other: [_play_round] returns, and the loop of
    [_rounds] adds one to the step counter and runs its termination checks
    on that state.  Nothing is logged for the later bots: the last line of
    the loop is the one that reports the empty deck. *)
Theorem empty_deck_truncates_round :
  forall (g : Game) (st : Store) (g' : Game) (st' : Store),
  _play_round_for (_bots g) (_log g (RoundHeader (_current_step g + 1))) st
  = (Broke, g', st') ->
  (exists before bot after g1,
      _bots g = before ++ bot :: after
      /\ _play_round_for before (_log g (RoundHeader (_current_step g + 1))) st
         = (Completed, g1, st')
      /\ is_active (st' bot) = true
      /\ decide (st' bot) decide_default_target = true
      /\ draw (_deck g1) = (None, [])
      /\ g' = _log g1 (Line "Deck is empty!")
      /\ (forall b, In b after -> ~ In b before ->
            st' b = st b
            /\ hand (st' b) = hand (st b)
            /\ is_active (st' b) = is_active (st b)))
  /\ _play_round g st = (_show_state g' st', st')
  /\ (forall fuel, _current_step g < _max_steps g ->
        let g2 := set_current_step (_show_state g' st') (_current_step g + 1) in
        _rounds_while (S fuel) g st =
        match termination_checks g2 st' with
        | Won winner reason =>
            Some (_conclude g2 st' (Some winner) (Some reason))
        | GoOn => _rounds_while fuel g2 st'
        end).
Proof.
  intros g st g' st' Hbroke.
  assert (Hround : _play_round g st = (_show_state g' st', st')).
  { unfold _play_round. rewrite Hbroke. reflexivity. }
  split; [|split; [exact Hround|]].
  - destruct (_play_round_for_broke _ _ _ _ _ Hbroke)
      as [before [bot [after [g1 [Hbots [Hpre [Hact [_ [Hdec [Hdraw Hlog]]]]]]]]]].
    exists before, bot, after, g1.
    do 6 (split; [assumption|]).
    intros b _ Hb.
    pose proof (_play_round_for_frame before
                  (_log g (RoundHeader (_current_step g + 1))) st b Hb)
      as Hframe.
    rewrite Hpre in Hframe. cbn [snd] in Hframe.
    rewrite Hframe. repeat split.
  - intros fuel Hstep.
    rewrite _rounds_while_turn by exact Hstep.
    rewrite Hround. cbn [fst snd]. cbv zeta.
    pose proof (_play_round_session g st) as [_ [_ [Hcur _]]].
    rewrite Hround in Hcur. cbn [fst] in Hcur.
    rewrite Hcur. reflexivity.
Qed.

Lemma empty_deck_truncates_round_witness :
  last_card_round = (Broke, snd (fst last_card_round), snd last_card_round)
  /\ _play_round last_card_game demo_store
     = (_show_state (snd (fst last_card_round)) (snd last_card_round),
        snd last_card_round).
Proof.
  assert (H : last_card_round
              = (Broke, snd (fst last_card_round), snd last_card_round))
    by reflexivity.
  split; [exact H|].
  exact (proj1 (proj2 (empty_deck_truncates_round
                         last_card_game demo_store _ _ H))).
Defined.

(** In that round the first bot takes the last card, the second finds the
    deck empty, and the third is not asked. *)
Example last_card_round_hands :
  fst (fst last_card_round) = Broke
  /\ hand (snd last_card_round 0%nat) = [mkCard "Hearts" 5]
  /\ hand (snd last_card_round 1%nat) = []
  /\ snd last_card_round 2%nat = demo_store 2%nat
  /\ _logger (snd (fst last_card_round))
     = [RoundHeader 1; Draws "Bot-Conservative" (mkCard "Hearts" 5);
        Line "Deck is empty!"].
Proof.
  repeat split.
Qed.

(** When the steps are used up, the loop of [_rounds] hands the choice to
    [_determine_winner] and concludes with what it returns. *)
Lemma _rounds_while_exhausted : forall fuel g st,
  _max_steps g <= _current_step g ->
  _rounds_while fuel g st =
  let g1 :=
    _log g (Line "Max number of rounds reached - determining winner by score") in
  Some (_conclude (snd (_determine_winner g1 st)) st
                  (fst (_determine_winner g1 st)) None).
Proof.
  intros fuel g st Hsteps.
  apply Z.ltb_ge in Hsteps.
  destruct fuel; cbn [_rounds_while]; rewrite Hsteps; cbv zeta;
    destruct (_determine_winner _ st); reflexivity.
Qed.

(** ** Runs on concrete inputs *)

(** A whole game in which both bots bust in the third and last round:
    there is no winner, the balances stay at 1000 and the bets stay at 100
    and 200. *)
Example all_bust_game_keeps_bets :
  exists g st,
    all_bust_play = Some (g, st)
    /\ _current_step g = 3
    /\ calculate_score (hand (st 0%nat)) 21 = 28
    /\ calculate_score (hand (st 1%nat)) 21 = 28
    /\ last (_logger g) (Line "") = Line "Game ended with no winner."
    /\ balance (st 0%nat) = 1000 /\ balance (st 1%nat) = 1000
    /\ current_bet (st 0%nat) = 100 /\ current_bet (st 1%nat) = 200.
Proof.
  eexists. eexists.
  split; [vm_compute; reflexivity|].
  repeat split.
Qed.

Example stacked_is_a_shuffle_of_the_deck :
  Permutation fresh_cards (stacked fresh_cards).
Proof.
  apply NoDup_Permutation.
  - exact fresh_cards_NoDup.
  - apply distinct_b_NoDup. vm_compute. reflexivity.
  - intros c. unfold stacked.
    rewrite in_app_iff, filter_In, <- in_rev.
    split.
    + intros Hc.
      destruct (existsb (Card_eqb c) stacked_top) eqn:E.
      * right. apply existsb_exists in E.
        destruct E as [d [Hd Hcd]].
        apply Card_eqb_eq in Hcd. subst d. exact Hd.
      * left. split; [exact Hc | reflexivity].
    + intros [[Hc _]|Hc]; [exact Hc|].
      apply fresh_cards_spec.
      cbn in Hc.
      repeat (destruct Hc as [<-|Hc]; [cbn; split; [tauto | lia]|]).
      destruct Hc.
Qed.

(** The hands of [tests/test_game/test_game.py]. *)
Example test_bust_condition :
  calculate_score (hand_of [10; 10; 2]) 21 > 21.
Proof. vm_compute. reflexivity. Qed.

Example test_conservative_bot_decision :
  class_decide ConservativeBot (hand_of [10; 5]) 21 = true
  /\ class_decide ConservativeBot (hand_of [10; 7]) 21 = false.
Proof. split; reflexivity. Qed.

Example test_aggressive_bot_decision :
  class_decide AggressiveBot (hand_of [10; 8]) 21 = true
  /\ class_decide AggressiveBot (hand_of [10; 8; 2]) 21 = false.
Proof. split; reflexivity. Qed.

(** With the Ace the hand 3, 5, 2, Ace scores 21: the Ace is promoted. *)
Example test_mixed_bot_decision :
  class_decide MixedBot (hand_of [3; 5]) 21 = true
  /\ class_decide MixedBot (hand_of [3; 5; 2]) 21 = true
  /\ calculate_score (hand_of [3; 5; 2; 1]) 21 = 21
  /\ class_decide MixedBot (hand_of [3; 5; 2; 1]) 21 = false.
Proof. repeat split. Qed.

Example test_balanced_bot_strategy :
  class_decide BalancedBot (hand_of [5; 5]) 21 = true.
Proof. reflexivity. Qed.

Example test_intuitive_bot_decision :
  class_decide IntuitiveBot (hand_of [5]) 21 = true
  /\ class_decide IntuitiveBot (hand_of [5; 9]) 21 = true
  /\ class_decide IntuitiveBot (hand_of [5; 9; 3]) 21 = false
  /\ class_decide IntuitiveBot (hand_of [5; 9; 3; 2]) 21 = false
  /\ class_decide IntuitiveBot (hand_of [5; 9; 3; 2; 5]) 21 = false.
Proof. repeat split. Qed.

(** Soft Aces: one Ace counts 11 while the total stays within the target. *)
Example soft_ace_scores :
  calculate_score (hand_of [1; 9]) 21 = 20
  /\ calculate_score (hand_of [1; 1]) 21 = 12
  /\ calculate_score (hand_of [1; 10; 10]) 21 = 21
  /\ calculate_score (hand_of [1; 13]) 21 = 21
  /\ calculate_score (hand_of [1; 5]) 15 = 6.
Proof. repeat split. Qed.

Example test_bot_construction :
  Bot_init ConservativeBot "Bot-Conservative" 100 = Ok (demo_store 0%nat)
  /\ raises (Bot_init AggressiveBot "Aggro" (-1)) = true
  /\ raises (Bot_init AggressiveBot "Aggro" 1001) = true.
Proof. repeat split. Qed.

(** [reset_hand] clears the hand and reactivates the bot; balance and bet
    stay. *)
Lemma reset_hand_spec : forall b,
  hand (reset_hand b) = []
  /\ is_active (reset_hand b) = true
  /\ balance (reset_hand b) = balance b
  /\ current_bet (reset_hand b) = current_bet b.
Proof.
  intros b. repeat split.
Qed.

(** [test_initial_state]: a new game is at step 0 with 52 cards. *)
Lemma test_initial_state : forall rng bots max_steps target g,
  shuffles rng ->
  Game_init rng bots max_steps target = Ok g ->
  _current_step g = 0 /\ Deck_len (_deck g) = 52.
Proof.
  intros rng bots max_steps target g Hrng Hinit.
  unfold Game_init in Hinit.
  destruct (max_steps <=? 0); [discriminate|].
  injection Hinit as <-.
  split; [reflexivity|].
  unfold Deck_len, Deck_init. cbn [_deck].
  rewrite <- (Permutation_length (Hrng fresh_cards)). reflexivity.
Qed.

(* ------------------------------------------------------------------ *)
(** * Further properties *)

(** ** Scores *)

Lemma calculate_score_unfold : forall h t,
  calculate_score h t = promote_aces (count_aces h) (base_score h) t.
Proof.
  reflexivity.
Qed.

Lemma base_score_perm : forall h h',
  Permutation h h' -> base_score h = base_score h'.
Proof.
  unfold base_score.
  induction 1; cbn [map sum fold_right] in *; try lia.
  unfold sum in *. lia.
Qed.

Lemma count_aces_perm : forall h h',
  Permutation h h' -> count_aces h = count_aces h'.
Proof.
  unfold count_aces.
  induction 1; cbn [filter]; try reflexivity.
  - destruct (rank x =? 1); cbn [List.length]; congruence.
  - destruct (rank x =? 1); destruct (rank y =? 1); reflexivity.
  - congruence.
Qed.

Lemma base_score_add_card : forall h c,
  base_score (add_card h c) = base_score h + value c.
Proof.
  intros h c. unfold base_score, add_card.
  induction h as [|d h IH]; cbn [app map sum fold_right] in *.
  - lia.
  - unfold sum in *. lia.
Qed.

(** X1. The score of a hand does not depend on the order in which the
    cards were added. *)
Theorem calculate_score_order_independent : forall (h h' : Hand) (t : Z),
  Permutation h h' -> calculate_score h t = calculate_score h' t.
Proof.
  intros h h' t Hperm.
  rewrite !calculate_score_unfold.
  rewrite (base_score_perm h h' Hperm), (count_aces_perm h h' Hperm).
  reflexivity.
Qed.

Lemma calculate_score_order_independent_witness :
  Permutation (hand_of [1; 9; 5]) (hand_of [5; 1; 9])
  /\ calculate_score (hand_of [1; 9; 5]) 21
     = calculate_score (hand_of [5; 1; 9]) 21.
Proof.
  assert (H : Permutation (hand_of [1; 9; 5]) (hand_of [5; 1; 9])).
  { unfold hand_of. cbn [map].
    apply Permutation_sym.
    apply (Permutation_cons_app
             [mkCard "Hearts" 1; mkCard "Hearts" 9] [] (mkCard "Hearts" 5)).
    cbn [app]. apply Permutation_refl. }
  split; [exact H|].
  exact (calculate_score_order_independent _ _ 21 H).
Defined.

Lemma score_formula : forall (h : Hand) (t : Z),
  calculate_score h t =
  base_score h
  + 10 * Z.min (Z.of_nat (count_aces h))
               (Z.max 0 ((t - base_score h) / 10)).
Proof.
  intros h t. rewrite calculate_score_unfold.
  apply promote_aces_formula.
Qed.

Lemma score_bounds : forall (h : Hand) (t : Z),
  (calculate_score h t > t <-> base_score h > t)
  /\ base_score h <= calculate_score h t
  /\ calculate_score h t <= base_score h + 10 * Z.of_nat (count_aces h).
Proof.
  intros h t. rewrite score_formula.
  assert (Hdiv : base_score h <= t ->
                 10 * ((t - base_score h) / 10) <= t - base_score h).
  { intros _. apply Z.mul_div_le. lia. }
  assert (Hneg : base_score h > t -> (t - base_score h) / 10 < 0).
  { intros H. apply Z.div_lt_upper_bound; lia. }
  split; [|split]; [split; intros H| |]; lia.
Qed.

(** X2. The score in one expression: the sum of the card values plus 10
    for each promoted Ace, where the number of promoted Aces is the smaller
    of the number of Aces held and of [(target - sum) / 10] (floor
    division, 0 when that is negative). *)
Theorem calculate_score_formula : forall (h : Hand) (t : Z),
  calculate_score h t =
  base_score h
  + 10 * Z.min (Z.of_nat (count_aces h))
               (Z.max 0 ((t - base_score h) / 10)).
Proof.
  intros h t.
  rewrite calculate_score_unfold.
  apply promote_aces_formula.
Qed.

(** X3. A hand is bust exactly when the plain sum of its card values
    exceeds the target: promoting Aces never produces a bust, and it never
    lowers the score below that sum. *)
Theorem calculate_score_bust_iff : forall (h : Hand) (t : Z),
  (calculate_score h t > t <-> base_score h > t)
  /\ base_score h <= calculate_score h t
  /\ calculate_score h t <= base_score h + 10 * Z.of_nat (count_aces h).
Proof.
  intros h t.
  rewrite score_formula.
  assert (Hdiv : base_score h <= t ->
                 10 * ((t - base_score h) / 10) <= t - base_score h).
  { intros _. apply Z.mul_div_le. lia. }
  assert (Hneg : base_score h > t -> (t - base_score h) / 10 < 0).
  { intros H. apply Z.div_lt_upper_bound; lia. }
  split; [|split]; [split; intros H| |]; lia.
Qed.

(** X4. Once bust, always bust: adding a card of rank 0 or more to a bust
    hand leaves it bust. *)
Theorem bust_is_permanent : forall (h : Hand) (c : Card) (t : Z),
  0 <= rank c ->
  calculate_score h t > t ->
  calculate_score (add_card h c) t > t.
Proof.
  intros h c t Hrank Hbust.
  apply (proj1 (score_bounds _ t)).
  apply (proj1 (score_bounds _ t)) in Hbust.
  rewrite base_score_add_card.
  unfold value. lia.
Qed.

Lemma bust_is_permanent_witness :
  0 <= rank (mkCard "Spades" 1)
  /\ calculate_score (hand_of [10; 10; 2]) 21 > 21
  /\ calculate_score (add_card (hand_of [10; 10; 2]) (mkCard "Spades" 1)) 21
     > 21.
Proof.
  assert (H0 : 0 <= rank (mkCard "Spades" 1)) by (cbn; lia).
  assert (H1 : calculate_score (hand_of [10; 10; 2]) 21 > 21)
    by (vm_compute; reflexivity).
  split; [exact H0|]. split; [exact H1|].
  exact (bust_is_permanent _ _ 21 H0 H1).
Defined.

(** X5. With cards of rank 1 or more, as those of a deck, every card
    counts at least 1: the score is at least the number of cards held, so
    it is never negative. *)
Theorem calculate_score_at_least_cards : forall (h : Hand) (t : Z),
  (forall c, In c h -> 1 <= rank c) ->
  Z.of_nat (List.length h) <= calculate_score h t.
Proof.
  intros h t Hranks.
  destruct (score_bounds h t) as [_ [Hlow _]].
  apply Z.le_trans with (base_score h); [|exact Hlow].
  clear Hlow. unfold base_score.
  induction h as [|c h IH]; [cbn; lia|].
  cbn [List.length map sum fold_right].
  assert (Hc : 1 <= value c).
  { unfold value. specialize (Hranks c (or_introl eq_refl)). lia. }
  assert (IH' : Z.of_nat (List.length h) <= sum (map value h)).
  { apply IH. intros d Hd. apply Hranks. right. exact Hd. }
  unfold sum in *. lia.
Qed.

Lemma calculate_score_at_least_cards_witness :
  (forall c, In c (hand_of [1; 13; 7]) -> 1 <= rank c)
  /\ Z.of_nat (List.length (hand_of [1; 13; 7]))
     <= calculate_score (hand_of [1; 13; 7]) 21.
Proof.
  assert (H : forall c, In c (hand_of [1; 13; 7]) -> 1 <= rank c).
  { intros c Hc. cbn in Hc.
    destruct Hc as [<-|[<-|[<-|[]]]]; cbn; lia. }
  split; [exact H|].
  exact (calculate_score_at_least_cards _ 21 H).
Defined.

(** ** Bots *)

(** X6. Creating a bot raises exactly when the bet is negative or above
    the starting balance of 1000; otherwise the new bot has that name and
    class, balance 1000, the bet recorded, an empty hand, and is active. *)
Theorem Bot_init_validation : forall (c : BotClass) (n : string) (bet : Z),
  (raises (Bot_init c n bet) = true <-> bet < 0 \/ bet > 1000)
  /\ match Bot_init c n bet with
     | ValueError _ => bet < 0 \/ bet > 1000
     | Ok b => b = mkBot n 1000 bet true [] c
     end.
Proof.
  intros c n bet.
  unfold Bot_init, Bet_init, place_bet. cbn [balance].
  destruct (bet <? 0) eqn:Eneg.
  - apply Z.ltb_lt in Eneg. cbn [raises]. intuition.
  - apply Z.ltb_ge in Eneg.
    destruct (bet >? 1000) eqn:Ebig.
    + apply Z.gtb_lt in Ebig. cbn [raises].
      assert (bet > 1000) by lia. intuition.
    + rewrite Z.gtb_ltb in Ebig. apply Z.ltb_ge in Ebig.
      cbn [raises].
      split; [split; [discriminate | lia] | reflexivity].
Qed.

(** X7. [BotMeta] never changes the strategy tag of a class body.  For
    the tags conservative, aggressive, mixed and balanced it installs its
    own [decide], also over a [decide] the body defines; a body with
    another tag, or none, is left as it is. *)
Theorem BotMeta_overrides_decide :
  forall (own : option DecideFn) (h : Hand) (t : Z),
  (forall attrs, attr_strategy (BotMeta attrs) = attr_strategy attrs)
  /\ (exists d, attr_decide (BotMeta (mkAttrs (Some "conservative") own))
                = Some d
                /\ d h t = (calculate_score h t <? t - 5))
  /\ (exists d, attr_decide (BotMeta (mkAttrs (Some "aggressive") own))
                = Some d
                /\ d h t = (calculate_score h t <? t - 2))
  /\ (exists d, attr_decide (BotMeta (mkAttrs (Some "mixed") own)) = Some d
                /\ d h t = (calculate_score h t mod 2 =? 0))
  /\ (exists d, attr_decide (BotMeta (mkAttrs (Some "balanced") own))
                = Some d
                /\ d h t = (calculate_score h t <? t - 4))
  /\ (forall tag,
        tag <> Some "conservative" -> tag <> Some "aggressive" ->
        tag <> Some "mixed" -> tag <> Some "balanced" ->
        BotMeta (mkAttrs tag own) = mkAttrs tag own).
Proof.
  intros own h t.
  split.
  { intros [tag d]. unfold BotMeta. cbn [attr_strategy].
    repeat match goal with
           | |- context [if ?b then _ else _] => destruct b
           end; reflexivity. }
  do 4 (split; [eexists; split; reflexivity|]).
  intros tag H1 H2 H3 H4.
  unfold BotMeta. cbn [attr_strategy].
  assert (Hno : forall s, tag <> Some s -> strategy_is tag s = false).
  { intros s Hs. destruct tag as [x|]; [|reflexivity].
    cbn [strategy_is].
    destruct (String.eqb x s) eqn:E; [|reflexivity].
    apply String.eqb_eq in E. subst x. contradiction. }
  rewrite (Hno _ H1), (Hno _ H2), (Hno _ H3), (Hno _ H4).
  reflexivity.
Qed.

Lemma BotMeta_overrides_decide_witness :
  Some "intuitive" <> Some "conservative"
  /\ BotMeta (mkAttrs (Some "intuitive") (Some IntuitiveBot_decide))
     = mkAttrs (Some "intuitive") (Some IntuitiveBot_decide).
Proof.
  assert (H1 : Some "intuitive" <> Some "conservative") by discriminate.
  assert (H2 : Some "intuitive" <> Some "aggressive") by discriminate.
  assert (H3 : Some "intuitive" <> Some "mixed") by discriminate.
  assert (H4 : Some "intuitive" <> Some "balanced") by discriminate.
  split; [exact H1|].
  destruct (BotMeta_overrides_decide (Some IntuitiveBot_decide) [] 21)
    as [_ [_ [_ [_ [_ Hother]]]]].
  exact (Hother (Some "intuitive") H1 H2 H3 H4).
Defined.

(** X8. The threshold strategies are ordered by caution: on the same hand
    and target a conservative bot hits only if a balanced bot does, and a
    balanced bot only if an aggressive bot does; none of the three hits at
    or above the target.  At the default target 21 the balanced bot
    decides as the plain [Bot]. *)
Theorem strategies_ordered_by_caution : forall (h : Hand) (t : Z),
  (class_decide ConservativeBot h t = true ->
   class_decide BalancedBot h t = true)
  /\ (class_decide BalancedBot h t = true ->
      class_decide AggressiveBot h t = true)
  /\ (class_decide AggressiveBot h t = true -> calculate_score h t < t)
  /\ class_decide BalancedBot h 21 = class_decide BaseBot h 21.
Proof.
  intros h t.
  unfold class_decide.
  cbn -[calculate_score].
  unfold _build, Bot_decide.
  rewrite !Z.ltb_lt.
  repeat split; try lia.
Qed.

Lemma strategies_ordered_by_caution_witness :
  class_decide ConservativeBot (hand_of [10; 5]) 21 = true
  /\ class_decide BalancedBot (hand_of [10; 5]) 21 = true
  /\ class_decide AggressiveBot (hand_of [10; 5]) 21 = true
  /\ calculate_score (hand_of [10; 5]) 21 < 21.
Proof.
  destruct (strategies_ordered_by_caution (hand_of [10; 5]) 21)
    as [Hcb [Hba [Hat _]]].
  assert (Hc : class_decide ConservativeBot (hand_of [10; 5]) 21 = true)
    by reflexivity.
  split; [exact Hc|].
  split; [exact (Hcb Hc)|].
  split; [exact (Hba (Hcb Hc))|].
  exact (Hat (Hba (Hcb Hc))).
Defined.

(** ** Decks of any content *)

Lemma draw_many_top : forall (l below : list Card),
  draw_many (List.length l) (below ++ rev l) = (map Some l, below).
Proof.
  induction l as [|c l IH]; intros below.
  - cbn [List.length draw_many rev map]. rewrite app_nil_r. reflexivity.
  - cbn [List.length draw_many rev map].
    rewrite app_assoc, draw_top, IH. reflexivity.
Qed.

(** X9. [draw] on any deck: a deck with cards gives up its last card and
    keeps the others in order, one card shorter; an empty deck returns
    [None] and stays empty.  [None] comes back exactly when the deck is
    falsy, that is when its length is 0. *)
Theorem draw_takes_the_last_card : forall d : Deck,
  match draw d with
  | (Some c, d') => d = d' ++ [c] /\ Deck_len d' = Deck_len d - 1
  | (None, d') => d = [] /\ d' = []
  end
  /\ (fst (draw d) = None <-> Deck_bool d = false)
  /\ (Deck_bool d = false <-> Deck_len d = 0).
Proof.
  intros d.
  destruct (rev d) as [|c below] eqn:Erev.
  - assert (Hd : d = []).
    { rewrite <- (rev_involutive d), Erev. reflexivity. }
    subst d. cbn. repeat split; reflexivity.
  - assert (Hd : d = rev below ++ [c]).
    { rewrite <- (rev_involutive d), Erev. reflexivity. }
    rewrite Hd, draw_top.
    split; [split; [reflexivity|]|].
    + unfold Deck_len. rewrite length_app. cbn [List.length]. lia.
    + cbn [fst]. unfold Deck_len. rewrite length_app. cbn [List.length].
      destruct (rev below) as [|x xs]; cbn [app Deck_bool];
        repeat split; intros H; try discriminate; lia.
Qed.

(** X10. Drawing [n] cards from a deck that holds at least [n] returns its
    last [n] cards, the last one first, none of them [None], and leaves the
    cards before them as they were. *)
Theorem draw_many_takes_the_top : forall (n : nat) (d : Deck),
  (n <= List.length d)%nat ->
  draw_many n d =
  (map Some (rev (skipn (List.length d - n) d)),
   firstn (List.length d - n) d).
Proof.
  intros n d Hn.
  pose proof (draw_many_top (rev (skipn (List.length d - n) d))
                            (firstn (List.length d - n) d)) as H.
  rewrite rev_involutive, firstn_skipn, length_rev, length_skipn in H.
  replace (List.length d - (List.length d - n))%nat with n in H by lia.
  exact H.
Qed.

Lemma draw_many_takes_the_top_witness :
  le 2 (List.length (hand_of [3; 7; 9; 11]))
  /\ draw_many 2 (hand_of [3; 7; 9; 11])
     = ([Some (mkCard "Hearts" 11); Some (mkCard "Hearts" 9)],
        hand_of [3; 7]).
Proof.
  assert (H : le 2 (List.length (hand_of [3; 7; 9; 11])))
    by (cbn; lia).
  split; [exact H|].
  exact (draw_many_takes_the_top 2 (hand_of [3; 7; 9; 11]) H).
Defined.

(** X11. Reshuffling what is left of a deck keeps its cards: the deck has
    the same length, and drawing it empty returns exactly the cards it
    held before, each as often as before, and no [None]. *)
Theorem Deck_shuffle_keeps_cards : forall (rng : Rng) (d : Deck),
  shuffles rng ->
  Deck_len (Deck_shuffle rng d) = Deck_len d
  /\ exists drawn,
       draw_many (List.length d) (Deck_shuffle rng d) = (map Some drawn, [])
       /\ Permutation d drawn.
Proof.
  intros rng d Hrng.
  unfold Deck_shuffle, Deck_len.
  pose proof (Hrng d) as Hperm.
  rewrite <- (Permutation_length Hperm).
  split; [reflexivity|].
  exists (rev (rng d)).
  split.
  - pose proof (draw_many_top (rev (rng d)) []) as H.
    rewrite length_rev, rev_involutive in H. cbn [app] in H.
    rewrite (Permutation_length Hperm). exact H.
  - etransitivity; [exact Hperm | apply Permutation_rev].
Qed.

Lemma Deck_shuffle_keeps_cards_witness :
  shuffles (@rev Card)
  /\ Deck_len (Deck_shuffle (@rev Card) (hand_of [3; 7; 9]))
     = Deck_len (hand_of [3; 7; 9]).
Proof.
  split; [exact rev_shuffles|].
  exact (proj1 (Deck_shuffle_keeps_cards (@rev Card) (hand_of [3; 7; 9])
                  rev_shuffles)).
Defined.

(** ** What a round does to the bots *)

Lemma round_evolves_refl : forall b, round_evolves b b.
Proof.
  intros b. unfold round_evolves.
  repeat split. exists []. rewrite app_nil_r. reflexivity.
Qed.

Lemma round_evolves_trans : forall b1 b2 b3,
  round_evolves b1 b2 -> round_evolves b2 b3 -> round_evolves b1 b3.
Proof.
  unfold round_evolves.
  intros b1 b2 b3 [N1 [B1 [C1 [K1 [A1 [e1 H1]]]]]]
         [N2 [B2 [C2 [K2 [A2 [e2 H2]]]]]].
  repeat split; try congruence.
  - intros Hinactive.
    specialize (A1 Hinactive). subst b2.
    exact (A2 Hinactive).
  - exists (e1 ++ e2). rewrite H2, H1, app_assoc. reflexivity.
Qed.

Lemma round_evolves_upd : forall st bot b' r,
  round_evolves (st bot) b' -> round_evolves (st r) (upd st bot b' r).
Proof.
  intros st bot b' r H. unfold upd.
  destruct (Nat.eqb r bot) eqn:E.
  - apply Nat.eqb_eq in E. subst r. exact H.
  - apply round_evolves_refl.
Qed.

Lemma _play_round_for_evolves : forall bots g st r,
  round_evolves (st r) (snd (_play_round_for bots g st) r).
Proof.
  induction bots as [|bot rest IH]; intros g st r.
  - apply round_evolves_refl.
  - cbn [_play_round_for].
    destruct (negb (is_active (st bot))) eqn:Eact; [apply IH|].
    apply negb_false_iff in Eact.
    destruct (calculate_score (hand (st bot)) (target_score g)
              >=? target_score g).
    + eapply round_evolves_trans; [|apply IH].
      apply round_evolves_upd.
      unfold round_evolves, set_is_active; cbn.
      repeat split; try congruence.
      exists []. rewrite app_nil_r. reflexivity.
    + destruct (decide (st bot) decide_default_target).
      * destruct (draw (_deck g)) as [[card|] d].
        -- eapply round_evolves_trans; [|apply IH].
           apply round_evolves_upd.
           unfold round_evolves, set_hand, add_card; cbn.
           repeat split; try congruence.
           exists [card]. reflexivity.
        -- apply round_evolves_refl.
      * apply IH.
Qed.

(** X12. A round touches nothing but hands and activity flags: for every
    bot, listed or not, [_play_round] leaves name, balance, bet and class
    as they were; a bot that was inactive is left entirely as it was (the
    engine never reactivates a bot); and the hand a bot held is still the
    beginning of the hand it holds afterwards. *)
Theorem round_keeps_money_and_cards :
  forall (g : Game) (st : Store) (r : Ref),
  let st' := snd (_play_round g st) in
  name (st' r) = name (st r)
  /\ balance (st' r) = balance (st r)
  /\ current_bet (st' r) = current_bet (st r)
  /\ bot_class (st' r) = bot_class (st r)
  /\ (is_active (st r) = false -> st' r = st r)
  /\ (exists extra, hand (st' r) = hand (st r) ++ extra)
  /\ (~ In r (_bots g) -> st' r = st r).
Proof.
  intros g st r. cbv zeta.
  unfold _play_round.
  pose proof (_play_round_for_evolves (_bots g)
                (_log g (RoundHeader (_current_step g + 1))) st r) as Hev.
  pose proof (_play_round_for_frame (_bots g)
                (_log g (RoundHeader (_current_step g + 1))) st r) as Hfr.
  destruct (_play_round_for (_bots g)
              (_log g (RoundHeader (_current_step g + 1))) st)
    as [[flow g1] st1].
  cbn [snd] in *.
  destruct Hev as [N [B [C [K [A E]]]]].
  repeat split; assumption.
Qed.

Lemma round_keeps_money_and_cards_witness :
  is_active (set_is_active (demo_store 2%nat) false) = false
  /\ snd (_play_round last_card_game
            (upd demo_store 2%nat (set_is_active (demo_store 2%nat) false)))
         2%nat
     = set_is_active (demo_store 2%nat) false.
Proof.
  split; [reflexivity|].
  destruct (round_keeps_money_and_cards last_card_game
              (upd demo_store 2%nat (set_is_active (demo_store 2%nat) false))
              2%nat) as [_ [_ [_ [_ [Hinactive _]]]]].
  exact (Hinactive eq_refl).
Defined.

Lemma draw_some_inv : forall d c d',
  draw d = (Some c, d') -> d = d' ++ [c].
Proof.
  intros d c d' H. unfold draw in H.
  destruct (rev d) as [|x below] eqn:Erev; [discriminate|].
  injection H as -> <-.
  rewrite <- (rev_involutive d), Erev. reflexivity.
Qed.

Lemma draw_none_inv : forall d d',
  draw d = (None, d') -> d = [] /\ d' = [].
Proof.
  intros d d' H. unfold draw in H.
  destruct (rev d) as [|x below] eqn:Erev; [|discriminate].
  injection H as <-.
  assert (d = []) by (rewrite <- (rev_involutive d), Erev; reflexivity).
  split; assumption.
Qed.

Lemma turn_spec_more_cards : forall t deck deck' b b',
  incl deck deck' -> turn_spec t deck b b' -> turn_spec t deck' b b'.
Proof.
  unfold turn_spec. intros t deck deck' b b' Hincl H.
  destruct (negb (is_active b)); [exact H|].
  destruct (calculate_score (hand b) t >=? t); [exact H|].
  destruct (decide b decide_default_target); [|exact H].
  destruct H as [c [Hc Hb']]. exists c. split; [apply Hincl; exact Hc | exact Hb'].
Qed.

Lemma _play_round_for_frame_eq : forall bots g st flow g' st' r,
  _play_round_for bots g st = (flow, g', st') ->
  ~ In r bots -> st' r = st r.
Proof.
  intros bots g st flow g' st' r H Hr.
  pose proof (_play_round_for_frame bots g st r Hr) as Hf.
  rewrite H in Hf. exact Hf.
Qed.

(** In a list without repetition every bot takes exactly its own turn,
    unless the round was cut short before it. *)
Lemma _play_round_for_turns : forall bots g st flow g' st',
  NoDup bots ->
  _play_round_for bots g st = (flow, g', st') ->
  forall b, In b bots ->
    turn_spec (target_score g) (_deck g) (st b) (st' b)
    \/ (flow = Broke /\ st' b = st b).
Proof.
  induction bots as [|bot rest IH]; intros g st flow g' st' Hnd H b Hb.
  - destruct Hb.
  - inversion Hnd as [|? ? Hnotin Hnd']; subst.
    cbn [_play_round_for] in H.
    destruct (negb (is_active (st bot))) eqn:Eact.
    { destruct Hb as [<-|Hb].
      - left. rewrite (_play_round_for_frame_eq _ _ _ _ _ _ bot H Hnotin).
        unfold turn_spec. rewrite Eact. reflexivity.
      - exact (IH _ _ _ _ _ Hnd' H b Hb). }
    destruct (calculate_score (hand (st bot)) (target_score g)
              >=? target_score g) eqn:Escore.
    { destruct Hb as [<-|Hb].
      - left. rewrite (_play_round_for_frame_eq _ _ _ _ _ _ bot H Hnotin).
        rewrite upd_same.
        unfold turn_spec. rewrite Eact, Escore. reflexivity.
      - assert (Hne : b <> bot) by (intros ->; contradiction).
        pose proof (IH _ _ _ _ _ Hnd' H b Hb) as Hturn.
        rewrite !(upd_other st bot _ b Hne) in Hturn.
        exact Hturn. }
    destruct (decide (st bot) decide_default_target) eqn:Edec.
    + destruct (draw (_deck g)) as [[card|] d] eqn:Edraw.
      * pose proof (draw_some_inv _ _ _ Edraw) as Hdeck.
        destruct Hb as [<-|Hb].
        -- left.
           rewrite (_play_round_for_frame_eq _ _ _ _ _ _ bot H Hnotin).
           rewrite upd_same.
           unfold turn_spec. rewrite Eact, Escore, Edec.
           exists card. split; [|reflexivity].
           rewrite Hdeck. apply in_or_app. right. left. reflexivity.
        -- assert (Hne : b <> bot) by (intros ->; contradiction).
           pose proof (IH _ _ _ _ _ Hnd' H b Hb) as Hturn.
           rewrite !(upd_other st bot _ b Hne) in Hturn.
           cbn [_log set_deck target_score _deck] in Hturn.
           destruct Hturn as [Hturn|Hbroke]; [left | right; exact Hbroke].
           apply (turn_spec_more_cards _ d); [|exact Hturn].
           rewrite Hdeck. apply incl_appl, incl_refl.
      * injection H as <- _ <-.
        right. split; reflexivity.
    + destruct Hb as [<-|Hb].
      * left. rewrite (_play_round_for_frame_eq _ _ _ _ _ _ bot H Hnotin).
        unfold turn_spec. rewrite Eact, Escore, Edec. reflexivity.
      * exact (IH _ _ _ _ _ Hnd' H b Hb).
Qed.

(** X13. In a round that is not cut short by an empty deck, every bot of
    a list without repetition takes exactly one turn, decided on its state
    at the start of the round: an inactive bot is skipped; a bot whose
    score is at or above the target only becomes inactive; any other bot
    is asked to decide with the default target 21 and either gets exactly
    one card of the deck appended to its hand, or is left as it was. *)
Theorem completed_round_is_one_turn_each :
  forall (g : Game) (st : Store) (g' : Game) (st' : Store),
  NoDup (_bots g) ->
  _play_round_for (_bots g) (_log g (RoundHeader (_current_step g + 1))) st
  = (Completed, g', st') ->
  snd (_play_round g st) = st'
  /\ forall b, In b (_bots g) ->
       turn_spec (target_score g) (_deck g) (st b) (st' b).
Proof.
  intros g st g' st' Hnd H.
  split; [unfold _play_round; rewrite H; reflexivity|].
  intros b Hb.
  destruct (_play_round_for_turns _ _ _ _ _ _ Hnd H b Hb) as [Hturn|[Hf _]].
  - exact Hturn.
  - discriminate Hf.
Qed.

Lemma demo_bots_NoDup : NoDup (_bots demo_game).
Proof.
  cbn [_bots demo_game]. unfold demo_bots.
  repeat constructor; cbn; intuition discriminate.
Qed.

Lemma completed_round_is_one_turn_each_witness :
  NoDup (_bots demo_game)
  /\ demo_round = (Completed, snd (fst demo_round), snd demo_round)
  /\ turn_spec (target_score demo_game) (_deck demo_game)
       (demo_store 0%nat) (snd demo_round 0%nat).
Proof.
  assert (H : demo_round = (Completed, snd (fst demo_round), snd demo_round))
    by reflexivity.
  split; [exact demo_bots_NoDup|].
  split; [exact H|].
  apply (proj2 (completed_round_is_one_turn_each
                  demo_game demo_store _ _ demo_bots_NoDup H)).
  left. reflexivity.
Defined.

(** ** Cards are neither lost nor copied *)

Lemma hands_upd_out : forall bots st bot b',
  ~ In bot bots -> hands bots (upd st bot b') = hands bots st.
Proof.
  unfold hands.
  induction bots as [|x bots IH]; intros st bot b' Hout; [reflexivity|].
  cbn [flat_map].
  rewrite IH by (intros H; apply Hout; right; exact H).
  rewrite upd_other by (intros ->; apply Hout; left; reflexivity).
  reflexivity.
Qed.

Lemma hands_upd_same_hand : forall bots st bot b',
  hand b' = hand (st bot) -> hands bots (upd st bot b') = hands bots st.
Proof.
  unfold hands.
  induction bots as [|x bots IH]; intros st bot b' Hhand; [reflexivity|].
  cbn [flat_map].
  rewrite IH by exact Hhand.
  unfold upd at 1.
  destruct (Nat.eqb x bot) eqn:E; [|reflexivity].
  apply Nat.eqb_eq in E. subst x. rewrite Hhand. reflexivity.
Qed.

Lemma hands_upd_add : forall bots st bot c,
  NoDup bots -> In bot bots ->
  Permutation
    (hands bots (upd st bot (set_hand (st bot) (add_card (hand (st bot)) c))))
    (c :: hands bots st).
Proof.
  induction bots as [|x bots IH]; intros st bot c Hnd Hin; [destruct Hin|].
  inversion Hnd as [|? ? Hnotin Hnd']; subst.
  unfold hands in *. cbn [flat_map].
  destruct (Nat.eq_dec x bot) as [->|Hne].
  - rewrite upd_same.
    pose proof (hands_upd_out bots st bot
                  (set_hand (st bot) (add_card (hand (st bot)) c)) Hnotin)
      as Hout.
    unfold hands in Hout. rewrite Hout.
    unfold set_hand, add_card. cbn [hand].
    rewrite <- app_assoc. cbn [app].
    apply Permutation_sym, Permutation_middle.
  - destruct Hin as [E|Hin]; [contradiction|].
    rewrite upd_other by exact Hne.
    etransitivity.
    + apply Permutation_app_head. exact (IH st bot c Hnd' Hin).
    + apply Permutation_sym, Permutation_middle.
Qed.

(** The loop of a round on a part [l] of a list [bots] without
    repetition: what leaves the deck arrives in the hands. *)
Lemma _play_round_for_cards : forall bots l g st,
  NoDup bots -> incl l bots ->
  exists dealt,
    _deck g = _deck (snd (fst (_play_round_for l g st))) ++ rev dealt
    /\ Permutation (hands bots (snd (_play_round_for l g st)))
                   (hands bots st ++ dealt).
Proof.
  intros bots. induction l as [|bot rest IH]; intros g st Hnd Hincl.
  - exists []. cbn [_play_round_for fst snd rev].
    rewrite !app_nil_r. split; reflexivity.
  - assert (Hbot : In bot bots) by (apply Hincl; left; reflexivity).
    assert (Hrest : incl rest bots)
      by (intros x Hx; apply Hincl; right; exact Hx).
    cbn [_play_round_for].
    destruct (negb (is_active (st bot))); [apply IH; assumption|].
    destruct (calculate_score (hand (st bot)) (target_score g)
              >=? target_score g).
    + match goal with
      | |- context [_play_round_for rest ?g1 ?st1] =>
          destruct (IH g1 st1 Hnd Hrest) as [dealt [Hdeck Hhands]]
      end.
      exists dealt. split; [exact Hdeck|].
      rewrite hands_upd_same_hand in Hhands by reflexivity.
      exact Hhands.
    + destruct (decide (st bot) decide_default_target).
      * destruct (draw (_deck g)) as [[card|] d] eqn:Edraw.
        -- pose proof (draw_some_inv _ _ _ Edraw) as Hd.
           match goal with
           | |- context [_play_round_for rest ?g1 ?st1] =>
               destruct (IH g1 st1 Hnd Hrest) as [dealt [Hdeck Hhands]]
           end.
           cbn [_log set_deck _deck] in Hdeck.
           exists (card :: dealt). split.
           ++ rewrite Hd. cbn [rev]. rewrite app_assoc.
              f_equal. exact Hdeck.
           ++ etransitivity; [exact Hhands|].
              etransitivity;
                [apply Permutation_app_tail;
                 exact (hands_upd_add bots st bot card Hnd Hbot)|].
              cbn [app]. apply Permutation_middle.
        -- destruct (draw_none_inv _ _ Edraw) as [Hd ->].
           exists []. cbn [fst snd _log set_deck _deck rev].
           rewrite Hd, !app_nil_r. split; reflexivity.
      * match goal with
        | |- context [_play_round_for rest ?g1 ?st1] =>
            destruct (IH g1 st1 Hnd Hrest) as [dealt [Hdeck Hhands]]
        end.
        exists dealt. split; assumption.
Qed.

(** X14. A round neither loses nor copies a card: for a bot list without
    repetition, the cards that left the deck (taken from its end, in the
    order dealt) are exactly the cards that were added to the hands; the
    rest of the deck keeps its order. *)
Theorem round_conserves_cards : forall (g : Game) (st : Store),
  NoDup (_bots g) ->
  exists dealt,
    _deck g = _deck (fst (_play_round g st)) ++ rev dealt
    /\ Permutation (hands (_bots g) (snd (_play_round g st)))
                   (hands (_bots g) st ++ dealt).
Proof.
  intros g st Hnd.
  destruct (_play_round_for_cards (_bots g) (_bots g)
              (_log g (RoundHeader (_current_step g + 1))) st
              Hnd (incl_refl _)) as [dealt [Hdeck Hhands]].
  exists dealt.
  unfold _play_round.
  destruct (_play_round_for (_bots g)
              (_log g (RoundHeader (_current_step g + 1))) st)
    as [[flow g1] st1].
  cbn [fst snd _show_state _log _deck] in *.
  split; assumption.
Qed.

Lemma round_conserves_cards_witness :
  NoDup (_bots last_card_game)
  /\ exists dealt,
       _deck last_card_game
       = _deck (fst (_play_round last_card_game demo_store)) ++ rev dealt
       /\ Permutation
            (hands (_bots last_card_game)
                   (snd (_play_round last_card_game demo_store)))
            (hands (_bots last_card_game) demo_store ++ dealt).
Proof.
  split; [exact demo_bots_NoDup|].
  exact (round_conserves_cards last_card_game demo_store
           demo_bots_NoDup).
Defined.

(** ** The whole game *)

Lemma logs_more_refl : forall g, logs_more g g.
Proof.
  intros g. split; [reflexivity | apply same_session_refl].
Qed.

Lemma logs_more_trans : forall g1 g2 g3,
  logs_more g1 g2 -> logs_more g2 g3 -> logs_more g1 g3.
Proof.
  intros g1 g2 g3 [D1 S1] [D2 S2].
  split; [congruence | exact (same_session_trans _ _ _ S1 S2)].
Qed.

Lemma logs_more_log : forall g e, logs_more g (_log g e).
Proof.
  intros g e. split; [reflexivity | apply same_session_log].
Qed.

Lemma logs_more_log_all : forall (A : Type) (line : A -> Event) l g,
  logs_more g (fold_left (fun g x => _log g (line x)) l g).
Proof.
  intros A line. induction l as [|x l IH]; intros g.
  - apply logs_more_refl.
  - cbn [fold_left].
    eapply logs_more_trans; [apply logs_more_log | apply IH].
Qed.

Lemma _show_final_state_logs : forall g st w,
  logs_more g (_show_final_state g st w).
Proof.
  intros g st w. unfold _show_final_state.
  assert (H : logs_more g
    (fold_left
       (fun g bot => _log g (FinalBalance (name (st bot)) (balance (st bot))))
       (_bots g) (_log g (Line "Final Game State")))).
  { eapply logs_more_trans; [apply logs_more_log|].
    apply (logs_more_log_all Ref
             (fun bot => FinalBalance (name (st bot)) (balance (st bot)))). }
  destruct w as [w|]; [|exact H].
  eapply logs_more_trans; [exact H | apply logs_more_log].
Qed.

Lemma _show_initial_state_logs : forall g st,
  logs_more g (_show_initial_state g st).
Proof.
  intros g st. unfold _show_initial_state.
  eapply logs_more_trans; [apply logs_more_log|].
  apply (logs_more_log_all Ref
           (fun bot => InitialLine (name (st bot)) (balance (st bot))
                                   (current_bet (st bot)))).
Qed.

Lemma _conclude_logs : forall g st w reason,
  logs_more g (fst (_conclude g st w reason)).
Proof.
  intros g st w reason. unfold _conclude.
  destruct w as [w|].
  - destruct (_distribute_pot g st w) as [total st1]. cbn [fst].
    eapply logs_more_trans; [apply logs_more_log|].
    apply _show_final_state_logs.
  - cbn [fst].
    eapply logs_more_trans; [apply _show_final_state_logs|].
    apply logs_more_log.
Qed.

Lemma _determine_winner_logs : forall g st,
  logs_more g (snd (_determine_winner g st)).
Proof.
  intros g st. unfold _determine_winner.
  destruct (filter _ (_bots g)) as [|first others].
  - cbn [snd]. apply logs_more_log.
  - destruct (find _ (first :: others)); cbn [snd]; apply logs_more_refl.
Qed.

Lemma max_from_in : forall (A : Type) (key : A -> Z) l best,
  In (max_from key best l) (best :: l).
Proof.
  intros A key. induction l as [|x l IH]; intros best.
  - left. reflexivity.
  - cbn [max_from].
    destruct (key x >? key best).
    + right. apply IH.
    + destruct (IH best) as [E|Hin]; [left; exact E | right; right; exact Hin].
Qed.

Lemma _determine_winner_in : forall g st w,
  fst (_determine_winner g st) = Some w -> In w (_bots g).
Proof.
  intros g st w. unfold _determine_winner.
  destruct (filter (fun b => calculate_score (hand (st b)) (target_score g)
                             <=? target_score g) (_bots g))
    as [|first others] eqn:Hvalid; [discriminate|].
  assert (Hsub : forall x, In x (first :: others) -> In x (_bots g)).
  { intros x Hx. rewrite <- Hvalid in Hx.
    apply filter_In in Hx. tauto. }
  destruct (find _ (first :: others)) as [perfect|] eqn:Hfind;
    cbn [fst]; intros E; injection E as <-.
  - apply Hsub. apply find_some in Hfind. tauto.
  - apply Hsub. apply max_from_in.
Qed.

Lemma termination_checks_won : forall g st w reason,
  termination_checks g st = Won w reason ->
  In w (_bots g) /\ is_active (st w) = true
  /\ match reason with
     | LastRemaining => filter (fun b => is_active (st b)) (_bots g) = [w]
     | Reached points =>
         points = target_score g
         /\ calculate_score (hand (st w)) (target_score g) = target_score g
     end.
Proof.
  intros g st w reason. unfold termination_checks.
  set (active := filter (fun b => is_active (st b)) (_bots g)).
  assert (Hsub : forall x, In x active ->
                   In x (_bots g) /\ is_active (st x) = true).
  { intros x Hx. apply filter_In in Hx. exact Hx. }
  assert (Hfind : forall p,
    find (fun b => calculate_score (hand (st b)) (target_score g)
                   =? target_score g) active = Some p ->
    Won p (Reached (target_score g)) = Won w reason ->
    In w (_bots g) /\ is_active (st w) = true
    /\ match reason with
       | LastRemaining => active = [w]
       | Reached points =>
           points = target_score g
           /\ calculate_score (hand (st w)) (target_score g) = target_score g
       end).
  { intros p Hp E. injection E as <- <-.
    apply find_some in Hp. destruct Hp as [Hin Hscore].
    apply Z.eqb_eq in Hscore.
    destruct (Hsub p Hin). repeat split; assumption. }
  destruct active as [|a [|a' rest]] eqn:Hactive.
  - cbn [find]. discriminate.
  - intros E. injection E as <- <-.
    destruct (Hsub a (or_introl eq_refl)). repeat split; assumption.
  - destruct (find _ (a :: a' :: rest)) as [p|] eqn:Hp; [|discriminate].
    intros E. exact (Hfind p eq_refl E).
Qed.

(** The loop of [_rounds] is: some rounds, then a conclusion with the
    winner found, who is one of the bots, or with none. *)
Lemma _rounds_while_shape : forall fuel g st res,
  _rounds_while fuel g st = Some res ->
  exists g1 st1 g2 winner reason,
    rounds_reach g st g1 st1
    /\ logs_more g1 g2
    /\ (forall w, winner = Some w -> In w (_bots g1))
    /\ res = _conclude g2 st1 winner reason.
Proof.
  induction fuel as [|fuel IH]; intros g st res H.
  - cbn [_rounds_while] in H.
    destruct (_current_step g <? _max_steps g); [discriminate|].
    destruct (_determine_winner _ st) as [w g2] eqn:Hdw.
    injection H as <-.
    exists g, st, g2, w, None.
    split; [apply reach_here|].
    split.
    { eapply logs_more_trans; [apply logs_more_log|].
      pose proof (_determine_winner_logs
        (_log g (Line "Max number of rounds reached - determining winner by score")) st) as Hl.
      rewrite Hdw in Hl. exact Hl. }
    split; [|reflexivity].
    intros w' ->.
    pose proof (_determine_winner_in
      (_log g (Line "Max number of rounds reached - determining winner by score")) st w') as Hin.
    rewrite Hdw in Hin. exact (Hin eq_refl).
  - destruct (Z.lt_ge_cases (_current_step g) (_max_steps g)) as [Hlt|Hge].
    + rewrite _rounds_while_turn in H by exact Hlt. cbv zeta in H.
      destruct (termination_checks _ _) as [w r|] eqn:Hchecks.
      * injection H as <-.
        do 2 eexists. exists (set_current_step (fst (_play_round g st))
                   (_current_step (fst (_play_round g st)) + 1)).
        exists (Some w), (Some r).
        split; [apply reach_round; [exact Hlt | apply reach_here]|].
        split; [apply logs_more_refl|].
        split; [|reflexivity].
        intros w' E. injection E as <-.
        apply termination_checks_won in Hchecks. tauto.
      * destruct (IH _ _ _ H) as [g1 [st1 [g2 [w [r [Hreach Hrest]]]]]].
        exists g1, st1, g2, w, r.
        split; [|exact Hrest].
        apply reach_round; assumption.
    + cbn [_rounds_while] in H.
      apply Z.ltb_ge in Hge. rewrite Hge in H.
      destruct (_determine_winner _ st) as [w g2] eqn:Hdw.
      injection H as <-.
      exists g, st, g2, w, None.
      split; [apply reach_here|].
      split.
      { eapply logs_more_trans; [apply logs_more_log|].
        pose proof (_determine_winner_logs
          (_log g (Line "Max number of rounds reached - determining winner by score")) st) as Hl.
        rewrite Hdw in Hl. exact Hl. }
      split; [|reflexivity].
      intros w' ->.
      pose proof (_determine_winner_in
        (_log g (Line "Max number of rounds reached - determining winner by score")) st w') as Hin.
      rewrite Hdw in Hin. exact (Hin eq_refl).
Qed.

Lemma _play_round_for_deck : forall bots g st,
  exists dealt,
    _deck g = _deck (snd (fst (_play_round_for bots g st))) ++ dealt.
Proof.
  induction bots as [|bot rest IH]; intros g st.
  - exists []. cbn [_play_round_for fst snd]. rewrite app_nil_r. reflexivity.
  - cbn [_play_round_for].
    assert (Hskip : forall e st1,
      exists dealt,
        _deck g = _deck (snd (fst (_play_round_for rest (_log g e) st1)))
                  ++ dealt)
      by (intros e st1; exact (IH (_log g e) st1)).
    destruct (negb (is_active (st bot))); [apply IH|].
    destruct (calculate_score (hand (st bot)) (target_score g)
              >=? target_score g); [apply Hskip|].
    destruct (decide (st bot) decide_default_target); [|apply Hskip].
    destruct (draw (_deck g)) as [[card|] d] eqn:Edraw.
    + match goal with
      | |- context [_play_round_for rest ?g1 ?st1] =>
          destruct (IH g1 st1) as [dealt Hdeck]
      end.
      cbn [_log set_deck _deck] in Hdeck.
      exists (dealt ++ [card]).
      rewrite (draw_some_inv _ _ _ Edraw), app_assoc.
      f_equal. exact Hdeck.
    + destruct (draw_none_inv _ _ Edraw) as [Hd ->].
      exists []. cbn [fst snd _log set_deck _deck]. rewrite Hd. reflexivity.
Qed.

Lemma _play_round_deck : forall g st,
  exists dealt, _deck g = _deck (fst (_play_round g st)) ++ dealt.
Proof.
  intros g st.
  destruct (_play_round_for_deck (_bots g)
              (_log g (RoundHeader (_current_step g + 1))) st)
    as [dealt Hdeck].
  exists dealt. unfold _play_round.
  destruct (_play_round_for (_bots g)
              (_log g (RoundHeader (_current_step g + 1))) st)
    as [[flow g1] st1].
  exact Hdeck.
Qed.

Lemma _play_round_evolves : forall g st r,
  round_evolves (st r) (snd (_play_round g st) r).
Proof.
  intros g st r. unfold _play_round.
  pose proof (_play_round_for_evolves (_bots g)
                (_log g (RoundHeader (_current_step g + 1))) st r) as H.
  destruct (_play_round_for (_bots g)
              (_log g (RoundHeader (_current_step g + 1))) st)
    as [[flow g1] st1].
  exact H.
Qed.

Lemma _play_round_frame : forall g st r,
  ~ In r (_bots g) -> snd (_play_round g st) r = st r.
Proof.
  intros g st r Hr. unfold _play_round.
  pose proof (_play_round_for_frame (_bots g)
                (_log g (RoundHeader (_current_step g + 1))) st r Hr) as H.
  destruct (_play_round_for (_bots g)
              (_log g (RoundHeader (_current_step g + 1))) st)
    as [[flow g1] st1].
  exact H.
Qed.

Lemma _play_round_cards : forall g st,
  NoDup (_bots g) ->
  Permutation
    (_deck (fst (_play_round g st))
     ++ hands (_bots g) (snd (_play_round g st)))
    (_deck g ++ hands (_bots g) st).
Proof.
  intros g st Hnd.
  destruct (_play_round_for_cards (_bots g) (_bots g)
              (_log g (RoundHeader (_current_step g + 1))) st
              Hnd (incl_refl _)) as [dealt [Hdeck Hhands]].
  unfold _play_round.
  destruct (_play_round_for (_bots g)
              (_log g (RoundHeader (_current_step g + 1))) st)
    as [[flow g1] st1].
  cbn [fst snd _show_state _log _deck] in *.
  rewrite Hdeck, <- app_assoc.
  apply Permutation_app_head.
  etransitivity; [exact Hhands|].
  etransitivity; [apply Permutation_app_comm|].
  apply Permutation_app_tail, Permutation_rev.
Qed.

(** What the rounds of a game keep. *)
Lemma rounds_reach_session : forall g st g' st',
  rounds_reach g st g' st' ->
  _bots g' = _bots g
  /\ _max_steps g' = _max_steps g
  /\ target_score g' = target_score g
  /\ _current_step g <= _current_step g'
  /\ _current_step g' <= Z.max (_current_step g) (_max_steps g)
  /\ exists dealt, _deck g = _deck g' ++ dealt.
Proof.
  induction 1 as [g st|g st g' st' Hlt Hreach IH].
  - repeat split; try lia. exists []. rewrite app_nil_r. reflexivity.
  - destruct (_play_round_session g st) as [Hb [Hm [Hc Ht]]].
    destruct (_play_round_deck g st) as [dealt1 Hd1].
    cbn [set_current_step _bots _max_steps target_score _current_step _deck]
      in IH.
    destruct IH as [IHb [IHm [IHt [IHlo [IHhi [dealt2 IHd]]]]]].
    repeat split; try congruence; try lia.
    exists (dealt2 ++ dealt1).
    rewrite Hd1, IHd, app_assoc. reflexivity.
Qed.

Lemma rounds_reach_store : forall g st g' st',
  rounds_reach g st g' st' ->
  forall r, round_evolves (st r) (st' r)
            /\ (~ In r (_bots g) -> st' r = st r).
Proof.
  induction 1 as [g st|g st g' st' Hlt Hreach IH]; intros r.
  - split; [apply round_evolves_refl | reflexivity].
  - destruct (IH r) as [Hev Hframe].
    split.
    + eapply round_evolves_trans; [apply _play_round_evolves | exact Hev].
    + intros Hr.
      destruct (_play_round_session g st) as [Hb _].
      cbn [set_current_step _bots] in Hframe.
      rewrite Hb in Hframe.
      rewrite (Hframe Hr). apply _play_round_frame. exact Hr.
Qed.

Lemma hands_ext : forall bots st st',
  (forall r, hand (st' r) = hand (st r)) -> hands bots st' = hands bots st.
Proof.
  unfold hands. intros bots st st' H.
  induction bots as [|b bots IH]; [reflexivity|].
  cbn [flat_map]. rewrite H, IH. reflexivity.
Qed.

Lemma rounds_reach_cards : forall g st g' st',
  rounds_reach g st g' st' ->
  NoDup (_bots g) ->
  Permutation (_deck g' ++ hands (_bots g) st') (_deck g ++ hands (_bots g) st).
Proof.
  induction 1 as [g st|g st g' st' Hlt Hreach IH]; intros Hnd.
  - apply Permutation_refl.
  - destruct (_play_round_session g st) as [Hb _].
    cbn [set_current_step _bots _deck] in IH.
    rewrite Hb in IH.
    etransitivity; [exact (IH Hnd)|].
    apply _play_round_cards. exact Hnd.
Qed.

(** What a conclusion does to a bot: nothing but balance and bet may
    change, and only for the bots of the list and the winner. *)
Lemma _conclude_store : forall g st w reason r,
  name (snd (_conclude g st w reason) r) = name (st r)
  /\ is_active (snd (_conclude g st w reason) r) = is_active (st r)
  /\ hand (snd (_conclude g st w reason) r) = hand (st r)
  /\ bot_class (snd (_conclude g st w reason) r) = bot_class (st r)
  /\ (~ In r (_bots g) -> w <> Some r ->
      snd (_conclude g st w reason) r = st r).
Proof.
  intros g st w reason r.
  destruct w as [w|]; [|cbn [_conclude snd]; repeat split].
  assert (Hst' : snd (_conclude g st (Some w) reason) r
                 = snd (_distribute_pot g st w) r).
  { unfold _conclude.
    destruct (_distribute_pot g st w) as [total st1]. reflexivity. }
  rewrite Hst', _distribute_pot_store. cbv zeta.
  unfold upd, settled.
  destruct (in_dec Nat.eq_dec r (_bots g)) as [Hin|Hout];
    destruct (Nat.eqb r w) eqn:E;
    try (apply Nat.eqb_eq in E; subst r);
    repeat split; try contradiction.
Qed.







Lemma play_shape : forall g st res,
  play g st = Some res ->
  exists g1 st1 g2 winner reason,
    rounds_reach (_show_initial_state g st) st g1 st1
    /\ logs_more g1 g2
    /\ (forall w, winner = Some w -> In w (_bots g1))
    /\ res = _conclude g2 st1 winner reason.
Proof.
  intros g st res H. unfold play, _rounds in H.
  exact (_rounds_while_shape _ _ _ _ H).
Qed.

Lemma _rounds_while_advances : forall fuel g st res,
  _rounds_while fuel g st = Some res ->
  _current_step g <= _current_step (fst res)
  /\ (_current_step g < _max_steps g ->
      _current_step g < _current_step (fst res)).
Proof.
  assert (Hexhausted : forall g st res,
    (let g1 :=
       _log g (Line "Max number of rounds reached - determining winner by score") in
     let (winner, g2) := _determine_winner g1 st in
     Some (_conclude g2 st winner None)) = Some res ->
    _current_step (fst res) = _current_step g).
  { intros g st res H. cbv zeta in H.
    pose proof (_determine_winner_logs
      (_log g (Line "Max number of rounds reached - determining winner by score")) st)
      as [_ [_ [_ [Hc _]]]].
    destruct (_determine_winner _ st) as [w g2].
    injection H as <-.
    destruct (_conclude_logs g2 st w None) as [_ [_ [_ [Hc' _]]]].
    cbn [snd _log _current_step] in Hc. congruence. }
  induction fuel as [|fuel IH]; intros g st res H.
  - cbn [_rounds_while] in H.
    destruct (_current_step g <? _max_steps g) eqn:E; [discriminate|].
    apply Z.ltb_ge in E.
    rewrite (Hexhausted g st res H). lia.
  - destruct (Z.lt_ge_cases (_current_step g) (_max_steps g)) as [Hlt|Hge].
    + rewrite _rounds_while_turn in H by exact Hlt. cbv zeta in H.
      destruct (_play_round_session g st) as [_ [_ [Hc _]]].
      destruct (termination_checks _ _) as [w r|].
      * match type of H with
        | Some (_conclude ?g2 ?st1 ?w ?r) = _ =>
            destruct (_conclude_logs g2 st1 w r) as [_ [_ [_ [Hc' _]]]];
            assert (E : res = _conclude g2 st1 w r) by congruence
        end.
        rewrite E.
        cbn [set_current_step _current_step] in Hc'. lia.
      * destruct (IH _ _ _ H) as [Hle _].
        cbn [set_current_step _current_step] in Hle. lia.
    + cbn [_rounds_while] in H.
      pose proof Hge as Hge'. apply Z.ltb_ge in Hge'. rewrite Hge' in H.
      rewrite (Hexhausted g st res H). lia.
Qed.

(** X16. [play] always comes to an end, within the steps allowed: it
    returns; the bot list, [max_steps] and [target_score] are as before;
    the step counter has not gone down and is at most [max_steps] (or
    where it started, if that was higher); when steps were left at the
    start, at least one round was played; and the deck is the old deck
    with some cards taken from its end. *)
Theorem play_ends_within_max_steps : forall (g : Game) (st : Store),
  exists g' st',
    play g st = Some (g', st')
    /\ _bots g' = _bots g
    /\ _max_steps g' = _max_steps g
    /\ target_score g' = target_score g
    /\ _current_step g <= _current_step g'
    /\ _current_step g' <= Z.max (_current_step g) (_max_steps g)
    /\ (_current_step g < _max_steps g -> _current_step g < _current_step g')
    /\ exists dealt, _deck g = _deck g' ++ dealt.
Proof.
  intros g st.
  destruct (play_returns g st) as [[g' st'] Hplay].
  exists g', st'. split; [exact Hplay|].
  destruct (play_shape _ _ _ Hplay)
    as [g1 [st1 [g2 [w [r [Hreach [[Hd2 Hs2] [_ Hres]]]]]]]].
  destruct (_show_initial_state_logs g st) as [Hd0 [Hb0 [Hm0 [Hc0 Ht0]]]].
  destruct (rounds_reach_session _ _ _ _ Hreach)
    as [Hb1 [Hm1 [Ht1 [Hlo [Hhi [dealt Hdeck]]]]]].
  destruct Hs2 as [Hb2 [Hm2 [Hc2 Ht2]]].
  destruct (_conclude_logs g2 st1 w r) as [Hd3 [Hb3 [Hm3 [Hc3 Ht3]]]].
  rewrite <- Hres in Hd3, Hb3, Hm3, Hc3, Ht3. cbn [fst] in *.
  assert (Hstep : _current_step g < _max_steps g ->
                  _current_step g < _current_step g').
  { intros Hlt.
    unfold play, _rounds in Hplay.
    destruct (_rounds_while_advances _ _ _ _ Hplay) as [_ Hadv].
    cbn [fst] in Hadv. rewrite Hc0, Hm0 in Hadv. exact (Hadv Hlt). }
  repeat split; try congruence; try lia.
  - exists dealt. congruence.
Qed.

Lemma stacked_game_built :
  Game_init stacked [0%nat; 1%nat] 3 None = Ok stacked_game.
Proof.
  reflexivity.
Qed.

Lemma stacked_game_played :
  play stacked_game two_aggressive = Some stacked_result.
Proof.
  vm_compute. reflexivity.
Qed.

Lemma play_ends_within_max_steps_witness :
  _current_step stacked_game < _max_steps stacked_game
  /\ exists g' st',
       play stacked_game two_aggressive = Some (g', st')
       /\ _current_step stacked_game < _current_step g'
       /\ _current_step g' <= _max_steps stacked_game.
Proof.
  assert (Hlt : _current_step stacked_game < _max_steps stacked_game)
    by (cbn; lia).
  split; [exact Hlt|].
  destruct (play_ends_within_max_steps stacked_game two_aggressive)
    as [g' [st' [Hplay [_ [_ [_ [_ [Hhi [Hadv _]]]]]]]]].
  exists g', st'.
  split; [exact Hplay|].
  split; [exact (Hadv Hlt)|].
  cbn [stacked_game _current_step _max_steps] in *. lia.
Defined.

(** X17. What a whole game may do to a bot: [play] never changes a name or
    a class; it never reactivates a bot; the hand held at the start is
    still the beginning of the hand held at the end, and is the whole of it
    for a bot that was inactive at the start; and a bot that is not in the
    game's list is left exactly as it was. *)
Theorem play_touches_only_its_bots :
  forall (g : Game) (st : Store) (g' : Game) (st' : Store),
  play g st = Some (g', st') ->
  forall r,
    name (st' r) = name (st r)
    /\ bot_class (st' r) = bot_class (st r)
    /\ (is_active (st' r) = true -> is_active (st r) = true)
    /\ (exists extra, hand (st' r) = hand (st r) ++ extra)
    /\ (is_active (st r) = false -> hand (st' r) = hand (st r))
    /\ (~ In r (_bots g) -> st' r = st r).
Proof.
  intros g st g' st' Hplay r.
  destruct (play_shape _ _ _ Hplay)
    as [g1 [st1 [g2 [w [reason [Hreach [[_ [Hb2 _]] [Hw Hres]]]]]]]].
  destruct (rounds_reach_store _ _ _ _ Hreach r)
    as [[N [B [C [K [A [extra E]]]]]] Hframe].
  destruct (rounds_reach_session _ _ _ _ Hreach) as [Hb1 _].
  destruct (_show_initial_state_logs g st) as [_ [Hb0 _]].
  destruct (_conclude_store g2 st1 w reason r) as [N' [A' [H' [K' F']]]].
  rewrite <- Hres in N', A', H', K', F'. cbn [snd] in *.
  repeat split; try congruence.
  - intros Hactive.
    destruct (is_active (st r)) eqn:Eact; [reflexivity|].
    specialize (A eq_refl). congruence.
  - exists extra. congruence.
  - intros Hinactive. specialize (A Hinactive). congruence.
  - intros Hr.
    assert (Hr1 : ~ In r (_bots (_show_initial_state g st)))
      by (rewrite Hb0; exact Hr).
    rewrite F'.
    + exact (Hframe Hr1).
    + rewrite Hb2, Hb1. exact Hr1.
    + intros ->. apply Hr1. rewrite <- Hb1. apply Hw. reflexivity.
Qed.

Lemma play_touches_only_its_bots_witness :
  play stacked_game two_aggressive = Some stacked_result
  /\ ~ In 7%nat (_bots stacked_game)
  /\ snd stacked_result 7%nat = two_aggressive 7%nat.
Proof.
  assert (Hout : ~ In 7%nat (_bots stacked_game)).
  { cbn. intros [H|[H|[]]]; discriminate H. }
  split; [exact stacked_game_played|].
  split; [exact Hout|].
  destruct (play_touches_only_its_bots stacked_game two_aggressive
              (fst stacked_result) (snd stacked_result))
    with (r := 7%nat) as [_ [_ [_ [_ [_ Hframe]]]]].
  - rewrite stacked_game_played. destruct stacked_result. reflexivity.
  - exact (Hframe Hout).
Defined.



(** X19. A game ends settled or untouched: after [play], either every bot
    of the list has [current_bet] 0 (a winner was paid), or every bot has
    the balance and the bet it had at the start (no winner). *)
Theorem play_settles_or_keeps_bets :
  forall (g : Game) (st : Store) (g' : Game) (st' : Store),
  play g st = Some (g', st') ->
  (forall b, In b (_bots g) -> current_bet (st' b) = 0)
  \/ (forall r, balance (st' r) = balance (st r)
                /\ current_bet (st' r) = current_bet (st r)).
Proof.
  intros g st g' st' Hplay.
  destruct (play_shape _ _ _ Hplay)
    as [g1 [st1 [g2 [w [reason [Hreach [[_ [Hb2 _]] [Hw Hres]]]]]]]].
  destruct (rounds_reach_session _ _ _ _ Hreach) as [Hb1 _].
  destruct (_show_initial_state_logs g st) as [_ [Hb0 _]].
  assert (Hst' : st' = snd (_conclude g2 st1 w reason))
    by (rewrite <- Hres; reflexivity).
  destruct w as [w|].
  - left. intros b Hb.
    assert (Hin : In b (_bots g2)) by congruence.
    rewrite Hst'. unfold _conclude.
    pose proof (_distribute_pot_store w g2 st1 b) as Hpot.
    destruct (_distribute_pot g2 st1 w) as [total st2].
    cbn [snd] in *. rewrite Hpot. cbv zeta.
    destruct (in_dec Nat.eq_dec b (_bots g2)) as [_|Hout]; [|contradiction].
    reflexivity.
  - right. intros r.
    rewrite Hst'. cbn [_conclude snd].
    destruct (rounds_reach_store _ _ _ _ Hreach r) as [[_ [B [C _]]] _].
    split; assumption.
Qed.

Lemma play_settles_or_keeps_bets_witness :
  play stacked_game two_aggressive = Some stacked_result
  /\ ((forall b, In b (_bots stacked_game) ->
         current_bet (snd stacked_result b) = 0)
      \/ (forall r, balance (snd stacked_result r) = balance (two_aggressive r)
                    /\ current_bet (snd stacked_result r)
                       = current_bet (two_aggressive r))).
Proof.
  split; [exact stacked_game_played|].
  apply (play_settles_or_keeps_bets stacked_game two_aggressive
           (fst stacked_result) (snd stacked_result)).
  rewrite stacked_game_played. destruct stacked_result. reflexivity.
Defined.

(** X20. A whole game neither loses nor copies a card: when the bots of
    the list are distinct, the cards left in the deck together with the
    cards in the hands after [play] are, card for card, those of the deck
    and the hands before. *)
Theorem play_conserves_cards :
  forall (g : Game) (st : Store) (g' : Game) (st' : Store),
  NoDup (_bots g) ->
  play g st = Some (g', st') ->
  Permutation (_deck g' ++ hands (_bots g) st')
              (_deck g ++ hands (_bots g) st).
Proof.
  intros g st g' st' Hnd Hplay.
  destruct (play_shape _ _ _ Hplay)
    as [g1 [st1 [g2 [w [reason [Hreach [[Hd2 _] [_ Hres]]]]]]]].
  destruct (_show_initial_state_logs g st) as [Hd0 [Hb0 _]].
  pose proof (rounds_reach_cards _ _ _ _ Hreach) as Hcards.
  rewrite Hb0, Hd0 in Hcards. specialize (Hcards Hnd).
  destruct (_conclude_logs g2 st1 w reason) as [Hd3 _].
  rewrite <- Hres in Hd3. cbn [fst] in Hd3.
  assert (Hhands : hands (_bots g) st' = hands (_bots g) st1).
  { apply hands_ext. intros r.
    destruct (_conclude_store g2 st1 w reason r) as [_ [_ [H _]]].
    rewrite <- Hres in H. exact H. }
  rewrite Hhands, Hd3, Hd2. exact Hcards.
Qed.

Lemma play_conserves_cards_witness :
  NoDup (_bots stacked_game)
  /\ play stacked_game two_aggressive = Some stacked_result
  /\ Permutation
       (_deck (fst stacked_result)
        ++ hands (_bots stacked_game) (snd stacked_result))
       (_deck stacked_game ++ hands (_bots stacked_game) two_aggressive).
Proof.
  assert (Hnd : NoDup (_bots stacked_game)).
  { cbn. repeat constructor; cbn; intuition discriminate. }
  split; [exact Hnd|].
  split; [exact stacked_game_played|].
  apply (play_conserves_cards stacked_game two_aggressive
           (fst stacked_result) (snd stacked_result) Hnd).
  rewrite stacked_game_played. destruct stacked_result. reflexivity.
Defined.

Lemma hands_empty : forall bots st,
  (forall b, In b bots -> hand (st b) = []) -> hands bots st = [].
Proof.
  unfold hands. induction bots as [|b bots IH]; intros st H; [reflexivity|].
  cbn [flat_map].
  rewrite (H b (or_introl eq_refl)), IH; [reflexivity|].
  intros x Hx. apply H. right. exact Hx.
Qed.

(** X21. A game played from its construction deals every card at most
    once.  If the random source hands back the 52 cards in some order, the
    bots are distinct and start with empty hands, then after [play] the
    cards left in the deck and the cards held are together exactly the 52
    cards of a deck: no card is held twice, by one bot or by two, every
    card held is a card of the deck, and the cards held and left count 52
    together. *)
Theorem new_game_deals_each_card_once :
  forall (rng : Rng) (bots : list Ref) (max_steps : Z) (target : option Z)
         (g : Game) (st : Store) (g' : Game) (st' : Store),
  Permutation fresh_cards (rng fresh_cards) ->
  NoDup bots ->
  (forall b, In b bots -> hand (st b) = []) ->
  Game_init rng bots max_steps target = Ok g ->
  play g st = Some (g', st') ->
  Permutation (_deck g' ++ hands bots st') fresh_cards
  /\ NoDup (hands bots st')
  /\ (forall c, In c (hands bots st') ->
        In (suit c) suits /\ 1 <= rank c <= 13)
  /\ (List.length (_deck g') + List.length (hands bots st') = 52)%nat.
Proof.
  intros rng bots max_steps target g st g' st' Hrng Hnd Hempty Hinit Hplay.
  unfold Game_init in Hinit.
  destruct (max_steps <=? 0); [discriminate|].
  injection Hinit as <-.
  pose proof (play_shape _ _ _ Hplay)
    as [g1 [st1 [g2 [w [reason [Hreach [[Hd2 _] [_ Hres]]]]]]]].
  match type of Hreach with
  | rounds_reach (_show_initial_state ?g0 _) _ _ _ =>
      destruct (_show_initial_state_logs g0 st) as [Hd0 [Hb0 _]]
  end.
  pose proof (rounds_reach_cards _ _ _ _ Hreach) as Hcards.
  rewrite Hb0, Hd0 in Hcards. cbn [_bots _deck] in Hcards.
  specialize (Hcards Hnd).
  destruct (_conclude_logs g2 st1 w reason) as [Hd3 _].
  rewrite <- Hres in Hd3. cbn [fst] in Hd3.
  assert (Hhands : hands bots st' = hands bots st1).
  { apply hands_ext. intros r.
    destruct (_conclude_store g2 st1 w reason r) as [_ [_ [H _]]].
    rewrite <- Hres in H. exact H. }
  rewrite (hands_empty bots st Hempty), app_nil_r in Hcards.
  assert (Hall : Permutation (_deck g' ++ hands bots st') fresh_cards).
  { rewrite Hhands, Hd3, Hd2.
    etransitivity; [exact Hcards|].
    unfold Deck_init. apply Permutation_sym. exact Hrng. }
  assert (Hnodup : NoDup (_deck g' ++ hands bots st')).
  { apply (Permutation_NoDup (Permutation_sym Hall)), fresh_cards_NoDup. }
  split; [exact Hall|].
  split; [exact (NoDup_app_remove_l _ _ Hnodup)|].
  split.
  - intros c Hc. apply fresh_cards_spec.
    apply (Permutation_in _ Hall). apply in_or_app. right. exact Hc.
  - rewrite <- length_app, (Permutation_length Hall). reflexivity.
Qed.

Lemma new_game_deals_each_card_once_witness :
  Permutation fresh_cards (stacked fresh_cards)
  /\ NoDup [0%nat; 1%nat]
  /\ (forall b, In b [0%nat; 1%nat] -> hand (two_aggressive b) = [])
  /\ Game_init stacked [0%nat; 1%nat] 3 None = Ok stacked_game
  /\ play stacked_game two_aggressive = Some stacked_result
  /\ NoDup (hands [0%nat; 1%nat] (snd stacked_result)).
Proof.
  assert (Hnd : NoDup [0%nat; 1%nat])
    by (repeat constructor; cbn; intuition discriminate).
  assert (Hempty : forall b, In b [0%nat; 1%nat] ->
                             hand (two_aggressive b) = []).
  { intros b [<-|[<-|[]]]; reflexivity. }
  assert (Hplay : play stacked_game two_aggressive
                  = Some (fst stacked_result, snd stacked_result)).
  { rewrite stacked_game_played. destruct stacked_result. reflexivity. }
  split; [exact stacked_is_a_shuffle_of_the_deck|].
  split; [exact Hnd|].
  split; [exact Hempty|].
  split; [exact stacked_game_built|].
  split; [exact stacked_game_played|].
  exact (proj1 (proj2 (new_game_deals_each_card_once
                         stacked [0%nat; 1%nat] 3 None stacked_game
                         two_aggressive _ _
                         stacked_is_a_shuffle_of_the_deck Hnd Hempty
                         stacked_game_built Hplay))).
Defined.

(** Who wins before the steps run out: when the termination checks
    after a round name a winner, that winner is an active bot of the list;
    with the reason "last remaining bot" it is the only active one; with
    the reason "reached the target" its score is exactly the target, and
    the points reported are the game's target. *)
Theorem early_winner_is_active :
  forall (g : Game) (st : Store) (w : Ref) (reason : Reason),
  termination_checks g st = Won w reason ->
  In w (_bots g)
  /\ is_active (st w) = true
  /\ match reason with
     | LastRemaining => filter (fun b => is_active (st b)) (_bots g) = [w]
     | Reached points =>
         points = target_score g
         /\ calculate_score (hand (st w)) (target_score g) = target_score g
     end.
Proof.
  intros g st w reason H.
  exact (termination_checks_won g st w reason H).
Qed.

Lemma early_winner_is_active_witness :
  termination_checks demo_game
    (upd (upd demo_store 0%nat (set_is_active (demo_store 0%nat) false))
         2%nat (set_is_active (demo_store 2%nat) false))
  = Won 1%nat LastRemaining
  /\ In 1%nat (_bots demo_game).
Proof.
  assert (H : termination_checks demo_game
    (upd (upd demo_store 0%nat (set_is_active (demo_store 0%nat) false))
         2%nat (set_is_active (demo_store 2%nat) false))
    = Won 1%nat LastRemaining) by reflexivity.
  split; [exact H|].
  exact (proj1 (early_winner_is_active _ _ _ _ H)).
Defined.

(** ** Vectors *)

Lemma fold_left_add_acc : forall (f : nat -> Z) l acc,
  fold_left (fun s i => s + f i) l acc
  = acc + fold_left (fun s i => s + f i) l 0.
Proof.
  intros f. induction l as [|i l IH]; intros acc.
  - cbn. lia.
  - cbn [fold_left]. rewrite IH, (IH (0 + f i)). lia.
Qed.

Lemma fold_left_map_S : forall (f : nat -> Z) l acc,
  fold_left (fun s i => s + f i) (map S l) acc
  = fold_left (fun s i => s + f (S i)) l acc.
Proof.
  intros f. induction l as [|i l IH]; intros acc; [reflexivity|].
  cbn [map fold_left]. apply IH.
Qed.

(** The loop of [vector_multiplication] on lists of one length. *)
Lemma dot_loop : forall a b,
  List.length a = List.length b ->
  fold_left (fun s i => s + nth i a 0 * nth i b 0) (range (List.length a)) 0
  = dot a b.
Proof.
  unfold range, dot, sum.
  induction a as [|x a IH]; intros b Hlen.
  - reflexivity.
  - destruct b as [|y b]; [discriminate|].
    cbn [List.length] in *.
    rewrite <- cons_seq, <- seq_shift.
    cbn [fold_left combine map fold_right fst snd].
    rewrite (fold_left_map_S (fun i => nth i (x :: a) 0 * nth i (y :: b) 0)).
    cbn [nth].
    rewrite (fold_left_add_acc (fun i => nth i a 0 * nth i b 0)).
    rewrite IH by lia. lia.
Qed.

Lemma dot_comm : forall a b, dot a b = dot b a.
Proof.
  unfold dot, sum.
  induction a as [|x a IH]; intros b.
  - destruct b; reflexivity.
  - destruct b as [|y b]; [reflexivity|].
    cbn [combine map fold_right fst snd]. rewrite IH. lia.
Qed.

Lemma vector_multiplication_same_length : forall u v,
  List.length u = List.length v ->
  vector_multiplication u v = Some (dot u v).
Proof.
  intros u v Hlen. unfold vector_multiplication.
  rewrite (proj2 (Nat.eqb_eq _ _) Hlen). cbn [negb].
  rewrite dot_loop by exact Hlen. reflexivity.
Qed.

(** X22. [vector_multiplication] returns [None] exactly when the two
    vectors differ in length; otherwise it returns the sum of the products
    of their entries, position by position.  It does not depend on the
    order of its arguments. *)
Theorem vector_multiplication_spec : forall (a b : list Z),
  (vector_multiplication a b = None <-> List.length a <> List.length b)
  /\ (List.length a = List.length b ->
      vector_multiplication a b = Some (dot a b))
  /\ vector_multiplication a b = vector_multiplication b a.
Proof.
  intros a b.
  pose proof vector_multiplication_same_length as Hsame.
  assert (Hdiff : forall u v, List.length u <> List.length v ->
                              vector_multiplication u v = None).
  { intros u v Hlen. unfold vector_multiplication.
    rewrite (proj2 (Nat.eqb_neq _ _) Hlen). reflexivity. }
  destruct (Nat.eq_dec (List.length a) (List.length b)) as [Hlen|Hlen].
  - split; [|split].
    + rewrite (Hsame a b Hlen). split; [discriminate | contradiction].
    + intros _. exact (Hsame a b Hlen).
    + rewrite (Hsame a b Hlen), (Hsame b a (eq_sym Hlen)), dot_comm.
      reflexivity.
  - split; [|split].
    + rewrite (Hdiff a b Hlen). split; [intros _; exact Hlen | reflexivity].
    + intros E. contradiction.
    + rewrite (Hdiff a b Hlen), (Hdiff b a); [reflexivity|].
      intros E. apply Hlen. symmetry. exact E.
Qed.

Lemma vector_multiplication_spec_witness :
  List.length [3; 4] = List.length [4; 3]
  /\ vector_multiplication [3; 4] [4; 3] = Some 24
  /\ List.length [1; 1] <> List.length [1; 1; 1]
  /\ vector_multiplication [1; 1] [1; 1; 1] = None.
Proof.
  destruct (vector_multiplication_spec [3; 4] [4; 3]) as [_ [Hsome _]].
  destruct (vector_multiplication_spec [1; 1] [1; 1; 1]) as [Hnone _].
  assert (H1 : List.length [3; 4] = List.length [4; 3]) by reflexivity.
  assert (H2 : List.length [1; 1] <> List.length [1; 1; 1])
    by (cbn; discriminate).
  split; [exact H1|].
  split; [exact (Hsome H1)|].
  split; [exact H2|].
  exact (proj2 Hnone H2).
Defined.

(** X23. The product of a vector with itself is never [None] and never
    negative, and it is 0 exactly when every entry is 0. *)
Theorem vector_multiplication_self : forall v : list Z,
  exists s,
    vector_multiplication v v = Some s
    /\ 0 <= s
    /\ (s = 0 <-> forall x, In x v -> x = 0).
Proof.
  intros v. exists (dot v v).
  split; [exact (vector_multiplication_same_length v v eq_refl)|].
  unfold dot, sum.
  induction v as [|x v [IHpos IHzero]].
  - cbn. split; [lia|]. split; [intros _ x [] | reflexivity].
  - cbn [combine map fold_right fst snd].
    assert (Hx : 0 <= x * x) by nia.
    split; [lia|].
    split.
    + intros Hsum y [<-|Hy].
      * nia.
      * apply (proj1 IHzero); [lia | exact Hy].
    + intros Hall.
      rewrite (Hall x (or_introl eq_refl)).
      rewrite (proj2 IHzero); [reflexivity|].
      intros y Hy. apply Hall. right. exact Hy.
Qed.

(** ** Matrices *)

Section Comprehensions.

Context {A : Type}.

Lemma comprehension_returns : forall (f : nat -> outcome A) (g : nat -> A) idx,
  (forall i, In i idx -> f i = Returns (g i)) ->
  comprehension f idx = Returns (map g idx).
Proof.
  intros f g. induction idx as [|i idx IH]; intros H; [reflexivity|].
  cbn [comprehension map].
  rewrite (H i (or_introl eq_refl)). cbn [bind].
  rewrite IH by (intros k Hk; apply H; right; exact Hk).
  reflexivity.
Qed.

Lemma comprehension_raises : forall (f : nat -> outcome A) idx i,
  In i idx -> f i = IndexError -> comprehension f idx = IndexError.
Proof.
  intros f. induction idx as [|k idx IH]; intros i Hi Hf; [destruct Hi|].
  cbn [comprehension].
  destruct Hi as [->|Hi].
  - rewrite Hf. reflexivity.
  - destruct (f k); [|reflexivity].
    cbn [bind]. rewrite (IH i Hi Hf). reflexivity.
Qed.

Lemma getitem_in : forall (l : list A) i d,
  (i < List.length l)%nat -> getitem l i = Returns (nth i l d).
Proof.
  intros l i d Hi. unfold getitem.
  rewrite (nth_error_nth' l d Hi). reflexivity.
Qed.

Lemma getitem_out : forall (l : list A) i,
  (List.length l <= i)%nat -> getitem l i = IndexError.
Proof.
  intros l i Hi. unfold getitem.
  rewrite (proj2 (nth_error_None l i) Hi). reflexivity.
Qed.

Lemma map_nth_range : forall (l : list A) d,
  map (fun i => nth i l d) (range (List.length l)) = l.
Proof.
  unfold range. induction l as [|x l IH]; intros d; [reflexivity|].
  cbn [List.length].
  rewrite <- cons_seq, <- seq_shift. cbn [map nth].
  rewrite map_map. cbn [nth]. rewrite IH. reflexivity.
Qed.

End Comprehensions.

Lemma in_range : forall i n, In i (range n) <-> (i < n)%nat.
Proof.
  intros i n. unfold range. rewrite in_seq. lia.
Qed.

Lemma rectangular_row : forall r c m i,
  rectangular r c m -> (i < r)%nat ->
  getitem m i = Returns (nth i m []) /\ List.length (nth i m []) = c.
Proof.
  intros r c m i [Hlen Hrows] Hi.
  split; [apply getitem_in; lia|].
  rewrite Forall_forall in Hrows.
  apply Hrows, nth_In. lia.
Qed.

Lemma rectangular_entry : forall r c m i j,
  rectangular r c m -> (i < r)%nat -> (j < c)%nat ->
  entry m i j = Returns (at_ m i j).
Proof.
  intros r c m i j Hrect Hi Hj.
  destruct (rectangular_row r c m i Hrect Hi) as [Hrow Hlen].
  unfold entry, at_. rewrite Hrow. cbn [bind].
  apply getitem_in. lia.
Qed.

Lemma build_rectangular : forall r c f, rectangular r c (build r c f).
Proof.
  intros r c f. unfold rectangular, build, range.
  rewrite length_map, length_seq. split; [reflexivity|].
  apply Forall_forall. intros row Hrow.
  apply in_map_iff in Hrow. destruct Hrow as [i [<- _]].
  rewrite length_map, length_seq. reflexivity.
Qed.

Lemma build_at : forall r c f i j,
  (i < r)%nat -> (j < c)%nat -> at_ (build r c f) i j = f i j.
Proof.
  intros r c f i j Hi Hj. unfold at_, build, range.
  rewrite (nth_indep _ [] (map (fun j => f 0%nat j) (seq 0 c)))
    by (rewrite length_map, length_seq; exact Hi).
  rewrite (map_nth (fun i => map (fun j => f i j) (seq 0 c)) (seq 0 r) 0%nat i).
  rewrite seq_nth by exact Hi. cbn [Nat.add].
  rewrite (nth_indep _ 0 (f i 0%nat))
    by (rewrite length_map, length_seq; exact Hj).
  rewrite (map_nth (fun j => f i j) (seq 0 c) 0%nat j).
  rewrite seq_nth by exact Hj. reflexivity.
Qed.

Lemma build_ext : forall r c f g,
  (forall i j, (i < r)%nat -> (j < c)%nat -> f i j = g i j) ->
  build r c f = build r c g.
Proof.
  intros r c f g H. unfold build.
  apply map_ext_in. intros i Hi. apply in_range in Hi.
  apply map_ext_in. intros j Hj. apply in_range in Hj.
  exact (H i j Hi Hj).
Qed.

(** A rectangular matrix is the matrix of its entries. *)
Lemma build_of_entries : forall r c m,
  rectangular r c m -> build r c (at_ m) = m.
Proof.
  intros r c m Hrect.
  pose proof Hrect as [Hlen Hrows].
  unfold build, at_.
  etransitivity; [|exact (map_nth_range m [])].
  rewrite Hlen.
  apply map_ext_in. intros i Hi. apply in_range in Hi.
  destruct (rectangular_row r c m i Hrect Hi) as [_ Hc].
  rewrite <- Hc. apply map_nth_range.
Qed.

(** The three functions on rectangular matrices. *)
Lemma matrix_sum_rect : forall r c m1 m2,
  (0 < r)%nat -> rectangular r c m1 -> rectangular r c m2 ->
  matrix_sum m1 m2
  = Returns (Some (build r c (fun i j => at_ m1 i j + at_ m2 i j))).
Proof.
  intros r c m1 m2 Hr H1 H2.
  pose proof H1 as [Hlen1 _]. pose proof H2 as [Hlen2 _].
  destruct (rectangular_row r c m1 0 H1 Hr) as [Hrow1 Hc1].
  destruct (rectangular_row r c m2 0 H2 Hr) as [Hrow2 Hc2].
  unfold matrix_sum.
  rewrite Hlen1, Hlen2, Nat.eqb_refl. cbn [negb].
  rewrite Hrow1, Hrow2. cbn [bind].
  rewrite Hc1, Hc2, Nat.eqb_refl. cbn [negb].
  rewrite (comprehension_returns _
             (fun i => map (fun j => at_ m1 i j + at_ m2 i j) (range c))).
  - reflexivity.
  - intros i Hi. apply in_range in Hi.
    apply comprehension_returns.
    intros j Hj. apply in_range in Hj.
    rewrite (rectangular_entry r c m1 i j H1 Hi Hj).
    rewrite (rectangular_entry r c m2 i j H2 Hi Hj).
    reflexivity.
Qed.

Lemma matrix_transposition_rect : forall r c m,
  (0 < r)%nat -> rectangular r c m ->
  matrix_transposition m = Returns (build c r (fun i j => at_ m j i)).
Proof.
  intros r c m Hr Hrect.
  pose proof Hrect as [Hlen _].
  destruct (rectangular_row r c m 0 Hrect Hr) as [Hrow Hc].
  unfold matrix_transposition.
  rewrite Hrow. cbn [bind]. rewrite Hc, Hlen.
  apply comprehension_returns.
  intros i Hi. apply in_range in Hi.
  apply comprehension_returns.
  intros j Hj. apply in_range in Hj.
  exact (rectangular_entry r c m j i Hrect Hj Hi).
Qed.

Lemma matrix_multi_rect : forall r n c m1 m2,
  (0 < r)%nat -> (0 < n)%nat ->
  rectangular r n m1 -> rectangular n c m2 ->
  matrix_multi m1 m2
  = Returns (Some (build r c
      (fun i j => sum (map (fun k => at_ m1 i k * at_ m2 k j) (range n))))).
Proof.
  intros r n c m1 m2 Hr Hn H1 H2.
  pose proof H1 as [Hlen1 _]. pose proof H2 as [Hlen2 _].
  destruct (rectangular_row r n m1 0 H1 Hr) as [Hrow1 Hc1].
  destruct (rectangular_row n c m2 0 H2 Hn) as [Hrow2 Hc2].
  unfold matrix_multi.
  rewrite Hrow1. cbn [bind].
  rewrite Hc1, Hlen2, Nat.eqb_refl. cbn [negb].
  rewrite Hlen1.
  rewrite (comprehension_returns _
    (fun i => map (fun j => sum (map (fun k => at_ m1 i k * at_ m2 k j)
                                     (range n))) (range c))).
  - reflexivity.
  - intros i Hi. apply in_range in Hi.
    rewrite Hrow2. cbn [bind]. rewrite Hc2.
    apply comprehension_returns.
    intros j Hj. apply in_range in Hj.
    rewrite (comprehension_returns _ (fun k => at_ m1 i k * at_ m2 k j)).
    + reflexivity.
    + intros k Hk. apply in_range in Hk.
      rewrite (rectangular_entry r n m1 i k H1 Hi Hk).
      rewrite (rectangular_entry n c m2 k j H2 Hk Hj).
      reflexivity.
Qed.

Lemma test_a_rectangular : rectangular 2 2 test_a.
Proof.
  split; [reflexivity|]. repeat constructor.
Qed.

Lemma test_b_rectangular : rectangular 2 2 test_b.
Proof.
  split; [reflexivity|]. repeat constructor.
Qed.

(** X24. On two matrices of the same shape, with at least one row,
    [matrix_sum] returns the matrix of that shape whose entries are the
    sums of the entries at the same place, and the order of the arguments
    does not matter. *)
Theorem matrix_sum_entrywise : forall (r c : nat) (m1 m2 : Matrix),
  (0 < r)%nat -> rectangular r c m1 -> rectangular r c m2 ->
  exists s,
    matrix_sum m1 m2 = Returns (Some s)
    /\ rectangular r c s
    /\ (forall i j, (i < r)%nat -> (j < c)%nat ->
          at_ s i j = at_ m1 i j + at_ m2 i j)
    /\ matrix_sum m2 m1 = Returns (Some s).
Proof.
  intros r c m1 m2 Hr H1 H2.
  exists (build r c (fun i j => at_ m1 i j + at_ m2 i j)).
  split; [exact (matrix_sum_rect r c m1 m2 Hr H1 H2)|].
  split; [apply build_rectangular|].
  split; [intros i j Hi Hj; apply build_at; assumption|].
  rewrite (matrix_sum_rect r c m2 m1 Hr H2 H1).
  do 2 f_equal. apply build_ext. intros i j _ _. lia.
Qed.

Lemma matrix_sum_entrywise_witness :
  (0 < 2)%nat /\ rectangular 2 2 test_a /\ rectangular 2 2 test_b
  /\ exists s, matrix_sum test_a test_b = Returns (Some s)
               /\ matrix_sum test_b test_a = Returns (Some s).
Proof.
  assert (Hr : (0 < 2)%nat) by lia.
  split; [exact Hr|].
  split; [exact test_a_rectangular|].
  split; [exact test_b_rectangular|].
  destruct (matrix_sum_entrywise 2 2 test_a test_b Hr
              test_a_rectangular test_b_rectangular)
    as [s [Hs [_ [_ Hs']]]].
  exists s. split; assumption.
Defined.

(** X25. The dimension check of [matrix_sum] looks at the number of rows
    and at the first rows only.  Different numbers of rows, or first rows
    of different lengths, give [None].  Two empty matrices do not: the
    first row is asked for and [IndexError] is raised.  And when the check
    passes, a row of the first matrix that is shorter than its first row
    raises [IndexError]. *)
Theorem matrix_sum_dimension_check : forall (m1 m2 : Matrix),
  (List.length m1 <> List.length m2 -> matrix_sum m1 m2 = Returns None)
  /\ matrix_sum [] [] = IndexError
  /\ (forall row1 row2,
        List.length m1 = List.length m2 ->
        List.length row1 <> List.length row2 ->
        matrix_sum (row1 :: m1) (row2 :: m2) = Returns None)
  /\ (forall i,
        List.length m1 = List.length m2 ->
        List.length (nth 0 m1 []) = List.length (nth 0 m2 []) ->
        (i < List.length m1)%nat ->
        (List.length (nth i m1 []) < List.length (nth 0 m1 []))%nat ->
        matrix_sum m1 m2 = IndexError).
Proof.
  intros m1 m2.
  split; [|split; [reflexivity|split]].
  - intros Hlen. unfold matrix_sum.
    rewrite (proj2 (Nat.eqb_neq _ _) Hlen). reflexivity.
  - intros row1 row2 Hlen Hrows. unfold matrix_sum.
    cbn [List.length]. rewrite Hlen, Nat.eqb_refl. cbn [negb getitem nth_error bind].
    rewrite (proj2 (Nat.eqb_neq _ _) Hrows). reflexivity.
  - intros i Hlen Hfirst Hi Hshort. unfold matrix_sum.
    rewrite Hlen, Nat.eqb_refl. cbn [negb].
    rewrite (getitem_in m1 0 []) by lia.
    rewrite (getitem_in m2 0 []) by lia.
    cbn [bind].
    rewrite Hfirst, Nat.eqb_refl. cbn [negb].
    rewrite (comprehension_raises _ (range (List.length m2)) i);
      [reflexivity | apply in_range; lia |].
    apply (comprehension_raises _ _ (List.length (nth i m1 [])));
      [apply in_range; lia|].
    unfold entry.
    rewrite (getitem_in m1 i []) by exact Hi. cbn [bind].
    rewrite getitem_out by lia. reflexivity.
Qed.

Lemma matrix_sum_dimension_check_witness :
  List.length [[1; 2]; [2; 3; 5]] = List.length [[0; 1; 2]; [5; 6; 8]]
  /\ List.length [1; 2] <> List.length [0; 1; 2]
  /\ matrix_sum [[1; 2]; [2; 3; 5]] [[0; 1; 2]; [5; 6; 8]] = Returns None
  /\ matrix_sum [[1; 2]; [3]] [[1; 2]; [3; 4]] = IndexError.
Proof.
  assert (H2 : List.length [1; 2] <> List.length [0; 1; 2])
    by (cbn; discriminate).
  split; [reflexivity|].
  split; [exact H2|].
  split.
  - destruct (matrix_sum_dimension_check [[2; 3; 5]] [[5; 6; 8]])
      as [_ [_ [Hfirst _]]].
    exact (Hfirst [1; 2] [0; 1; 2] eq_refl H2).
  - destruct (matrix_sum_dimension_check [[1; 2]; [3]] [[1; 2]; [3; 4]])
      as [_ [_ [_ Hragged]]].
    apply (Hragged 1%nat); cbn; lia.
Defined.

(** X26. Transposing twice gives the matrix back: on a matrix with at least
    one row and one column, all rows of one length, [matrix_transposition]
    returns the matrix with rows and columns exchanged, and applied to
    that result it returns the original. *)
Theorem matrix_transposition_involution : forall (r c : nat) (m : Matrix),
  (0 < r)%nat -> (0 < c)%nat -> rectangular r c m ->
  exists t,
    matrix_transposition m = Returns t
    /\ rectangular c r t
    /\ (forall i j, (i < c)%nat -> (j < r)%nat -> at_ t i j = at_ m j i)
    /\ matrix_transposition t = Returns m.
Proof.
  intros r c m Hr Hc Hrect.
  exists (build c r (fun i j => at_ m j i)).
  split; [exact (matrix_transposition_rect r c m Hr Hrect)|].
  split; [apply build_rectangular|].
  split;
    [intros i j Hi Hj;
     exact (build_at c r (fun i j => at_ m j i) i j Hi Hj)|].
  rewrite (matrix_transposition_rect c r _ Hc (build_rectangular c r _)).
  f_equal.
  etransitivity; [|exact (build_of_entries r c m Hrect)].
  apply build_ext. intros i j Hi Hj.
  exact (build_at c r (fun i j => at_ m j i) j i Hj Hi).
Qed.

Lemma matrix_transposition_involution_witness :
  (0 < 3)%nat /\ (0 < 2)%nat
  /\ rectangular 3 2 [[2; 0]; [1; 2]; [3; 5]]
  /\ matrix_transposition [[2; 0]; [1; 2]; [3; 5]]
     = Returns [[2; 1; 3]; [0; 2; 5]]
  /\ matrix_transposition [[2; 1; 3]; [0; 2; 5]]
     = Returns [[2; 0]; [1; 2]; [3; 5]].
Proof.
  assert (Hr : (0 < 3)%nat) by lia.
  assert (Hc : (0 < 2)%nat) by lia.
  assert (Hrect : rectangular 3 2 [[2; 0]; [1; 2]; [3; 5]])
    by (split; [reflexivity | repeat constructor]).
  split; [exact Hr|]. split; [exact Hc|]. split; [exact Hrect|].
  destruct (matrix_transposition_involution 3 2 _ Hr Hc Hrect)
    as [t [Ht [_ [_ Hback]]]].
  assert (Et : t = [[2; 1; 3]; [0; 2; 5]]).
  { assert (E : Returns t = Returns [[2; 1; 3]; [0; 2; 5]])
      by (rewrite <- Ht; reflexivity).
    injection E as E. exact E. }
  rewrite Et in Hback.
  split; [reflexivity | exact Hback].
Defined.

(** X27. Where [matrix_transposition] loses the matrix: an empty matrix
    raises [IndexError]; a matrix of rows without entries returns the empty
    matrix, whatever the number of rows, so that transposing the result
    raises [IndexError]; and a row shorter than the first row raises
    [IndexError]. *)
Theorem matrix_transposition_edges :
  matrix_transposition [] = IndexError
  /\ (forall r m, (0 < r)%nat -> rectangular r 0 m ->
        matrix_transposition m = Returns []
        /\ bind (matrix_transposition m) matrix_transposition = IndexError)
  /\ (forall m i,
        (i < List.length m)%nat ->
        (List.length (nth i m []) < List.length (nth 0 m []))%nat ->
        matrix_transposition m = IndexError).
Proof.
  split; [reflexivity|split].
  - intros r m Hr Hrect.
    rewrite (matrix_transposition_rect r 0 m Hr Hrect).
    split; reflexivity.
  - intros m i Hi Hshort. unfold matrix_transposition.
    rewrite (getitem_in m 0 []) by lia. cbn [bind].
    apply (comprehension_raises _ _ (List.length (nth i m [])));
      [apply in_range; exact Hshort|].
    apply (comprehension_raises _ _ i); [apply in_range; exact Hi|].
    unfold entry.
    rewrite (getitem_in m i []) by exact Hi. cbn [bind].
    apply getitem_out. lia.
Qed.

Lemma matrix_transposition_edges_witness :
  (0 < 2)%nat /\ rectangular 2 0 [[]; []]
  /\ matrix_transposition [[]; []] = Returns []
  /\ matrix_transposition [[1; 2]; [3]] = IndexError.
Proof.
  assert (Hr : (0 < 2)%nat) by lia.
  assert (Hrect : rectangular 2 0 [[]; []])
    by (split; [reflexivity | repeat constructor]).
  destruct matrix_transposition_edges as [_ [Hflat Hragged]].
  split; [exact Hr|]. split; [exact Hrect|].
  split; [exact (proj1 (Hflat 2%nat _ Hr Hrect))|].
  apply (Hragged _ 1%nat); cbn; lia.
Defined.

Lemma fold_left_sum_map : forall (f : nat -> Z) l,
  fold_left (fun s i => s + f i) l 0 = sum (map f l).
Proof.
  intros f. unfold sum. induction l as [|i l IH]; [reflexivity|].
  cbn [fold_left map fold_right].
  rewrite fold_left_add_acc, IH. lia.
Qed.

Lemma dot_as_range : forall n a b,
  List.length a = n -> List.length b = n ->
  dot a b = sum (map (fun k => nth k a 0 * nth k b 0) (range n)).
Proof.
  intros n a b Ha Hb.
  rewrite <- (dot_loop a b) by congruence.
  rewrite Ha. apply fold_left_sum_map.
Qed.

Lemma column_length : forall m j, List.length (column m j) = List.length m.
Proof.
  intros m j. unfold column. apply length_map.
Qed.

Lemma column_nth : forall m j k, nth k (column m j) 0 = at_ m k j.
Proof.
  intros m j k. unfold column, at_.
  destruct (Nat.lt_ge_cases k (List.length m)) as [Hk|Hk].
  - rewrite (nth_indep _ 0 ((fun row : list Z => nth j row 0) []))
      by (rewrite length_map; exact Hk).
    apply (map_nth (fun row : list Z => nth j row 0)).
  - rewrite nth_overflow by (rewrite length_map; exact Hk).
    rewrite (nth_overflow m []) by exact Hk.
    destruct j; reflexivity.
Qed.

(** X28. On an [r] by [n] matrix and an [n] by [c] matrix, with [r] and
    [n] at least 1, [matrix_multi] returns an [r] by [c] matrix whose entry
    [(i, j)] is what [vector_multiplication] returns for row [i] of the
    first matrix and column [j] of the second. *)
Theorem matrix_multi_entries : forall (r n c : nat) (m1 m2 : Matrix),
  (0 < r)%nat -> (0 < n)%nat ->
  rectangular r n m1 -> rectangular n c m2 ->
  exists p,
    matrix_multi m1 m2 = Returns (Some p)
    /\ rectangular r c p
    /\ (forall i j, (i < r)%nat -> (j < c)%nat ->
          vector_multiplication (nth i m1 []) (column m2 j)
          = Some (at_ p i j)).
Proof.
  intros r n c m1 m2 Hr Hn H1 H2.
  eexists.
  split; [exact (matrix_multi_rect r n c m1 m2 Hr Hn H1 H2)|].
  split; [apply build_rectangular|].
  intros i j Hi Hj.
  destruct (rectangular_row r n m1 i H1 Hi) as [_ Hrow].
  pose proof H2 as [Hlen2 _].
  rewrite vector_multiplication_same_length
    by (rewrite column_length; congruence).
  f_equal.
  rewrite (build_at r c
             (fun i j => sum (map (fun k => at_ m1 i k * at_ m2 k j)
                                  (range n))) i j Hi Hj).
  rewrite (dot_as_range n) by (rewrite ?column_length; congruence).
  f_equal. apply map_ext. intros k.
  rewrite column_nth. reflexivity.
Qed.

Lemma matrix_multi_entries_witness :
  (0 < 2)%nat /\ rectangular 2 2 test_a /\ rectangular 2 2 test_b
  /\ matrix_multi test_a test_b = Returns (Some [[10; 1]; [5; 5]])
  /\ vector_multiplication (nth 0 test_a []) (column test_b 1) = Some 1.
Proof.
  assert (H2 : (0 < 2)%nat) by lia.
  split; [exact H2|].
  split; [exact test_a_rectangular|].
  split; [exact test_b_rectangular|].
  destruct (matrix_multi_entries 2 2 2 test_a test_b H2 H2
              test_a_rectangular test_b_rectangular)
    as [p [Hp [_ Hentry]]].
  assert (Ep : p = [[10; 1]; [5; 5]]).
  { assert (E : Returns (Some p) = Returns (Some [[10; 1]; [5; 5]]))
      by (rewrite <- Hp; reflexivity).
    injection E as E. exact E. }
  split; [reflexivity|].
  assert (H0 : (0 < 2)%nat) by lia.
  assert (H1 : (1 < 2)%nat) by lia.
  rewrite (Hentry 0%nat 1%nat H0 H1), Ep. reflexivity.
Defined.

(** X29. The dimension check of [matrix_multi] compares the length of the
    first row of the first matrix with the number of rows of the second:
    when they differ the result is [None].  An empty first matrix raises
    [IndexError]; so does a first matrix whose first row is empty against
    an empty second matrix, where the check passes and the first row of
    the second matrix is asked for. *)
Theorem matrix_multi_dimension_check : forall (m2 : Matrix),
  matrix_multi [] m2 = IndexError
  /\ (forall row rest,
        List.length row <> List.length m2 ->
        matrix_multi (row :: rest) m2 = Returns None)
  /\ (forall rest, matrix_multi ([] :: rest) [] = IndexError).
Proof.
  intros m2.
  split; [reflexivity|split].
  - intros row rest Hlen. unfold matrix_multi.
    cbn [getitem nth_error bind].
    rewrite (proj2 (Nat.eqb_neq _ _) Hlen). reflexivity.
  - intros rest. reflexivity.
Qed.

Lemma matrix_multi_dimension_check_witness :
  List.length [-1] <> List.length [[0]; [5]]
  /\ matrix_multi [[-1]; [0]; [3]] [[0]; [5]] = Returns None.
Proof.
  assert (H : List.length [-1] <> List.length [[0]; [5]])
    by (cbn; discriminate).
  split; [exact H|].
  exact (proj1 (proj2 (matrix_multi_dimension_check [[0]; [5]]))
           [-1] [[0]; [3]] H).
Defined.

(** X30. The transpose of a product is the product of the transposes in
    the other order: for an [r] by [n] matrix and an [n] by [c] matrix
    with [r], [n] and [c] at least 1, transposing what [matrix_multi]
    returns gives what [matrix_multi] returns on the transposed second
    matrix and the transposed first matrix. *)
Theorem matrix_multi_transposition : forall (r n c : nat) (m1 m2 : Matrix),
  (0 < r)%nat -> (0 < n)%nat -> (0 < c)%nat ->
  rectangular r n m1 -> rectangular n c m2 ->
  exists p t1 t2 pt,
    matrix_multi m1 m2 = Returns (Some p)
    /\ matrix_transposition m1 = Returns t1
    /\ matrix_transposition m2 = Returns t2
    /\ matrix_transposition p = Returns pt
    /\ matrix_multi t2 t1 = Returns (Some pt).
Proof.
  intros r n c m1 m2 Hr Hn Hc H1 H2.
  do 4 eexists.
  split; [exact (matrix_multi_rect r n c m1 m2 Hr Hn H1 H2)|].
  split; [exact (matrix_transposition_rect r n m1 Hr H1)|].
  split; [exact (matrix_transposition_rect n c m2 Hn H2)|].
  split;
    [exact (matrix_transposition_rect r c _ Hr (build_rectangular r c _))|].
  rewrite (matrix_multi_rect c n r _ _ Hc Hn
             (build_rectangular c n _) (build_rectangular n r _)).
  do 2 f_equal.
  apply build_ext. intros i j Hi Hj.
  rewrite (build_at r c
             (fun i j => sum (map (fun k => at_ m1 i k * at_ m2 k j)
                                  (range n))) j i Hj Hi).
  f_equal. apply map_ext_in. intros k Hk. apply in_range in Hk.
  rewrite (build_at c n (fun i j => at_ m2 j i) i k Hi Hk).
  rewrite (build_at n r (fun i j => at_ m1 j i) k j Hk Hj).
  lia.
Qed.

Lemma matrix_multi_transposition_witness :
  (0 < 2)%nat /\ rectangular 2 2 test_a /\ rectangular 2 2 test_b
  /\ exists p t1 t2 pt,
       matrix_multi test_a test_b = Returns (Some p)
       /\ matrix_transposition test_a = Returns t1
       /\ matrix_transposition test_b = Returns t2
       /\ matrix_transposition p = Returns pt
       /\ matrix_multi t2 t1 = Returns (Some pt).
Proof.
  assert (H2 : (0 < 2)%nat) by lia.
  split; [exact H2|].
  split; [exact test_a_rectangular|].
  split; [exact test_b_rectangular|].
  exact (matrix_multi_transposition 2 2 2 test_a test_b H2 H2 H2
           test_a_rectangular test_b_rectangular).
Defined.
